(** * kubernetes-event-exporter: the Prometheus sink

    A shallow embedding of [pkg/sinks/prometheus.go] and properties of the
    event-to-metric translation: the label name sanitizer, the label set
    builder, the registry built by [NewPrometheusSink] and the per-event
    router [Send].

    Go strings are byte sequences: they are modelled by [string], whose
    characters ([ascii]) are the bytes.  Go maps are [gmap]s; a lookup of an
    absent key yields Go's zero value, written out with [default]. *)

From Stdlib Require Import NArith ZArith Ascii String List Bool Lia.
From stdpp Require Import base option list strings gmap fin_maps.

Local Open Scope string_scope.
Local Open Scope list_scope.
Local Open Scope N_scope.

(** ** Bytes and UTF-8 (package unicode/utf8) *)

Module utf8.

Definition RuneError : N := 0xFFFD.
Definition RuneSelf : N := 0x80.

Definition byte_val (c : ascii) : N := N_of_ascii c.

(** The [first] table together with [acceptRanges]: what a leading byte
    announces.  [AS] is an ASCII byte, [XX] an invalid leader, and
    [Lead sz lo hi] a leader of a [sz]-byte sequence whose second byte
    must lie in [lo..hi]. *)
Inductive firstInfo : Type :=
| AS
| XX
| Lead (sz : nat) (lo hi : N).

Definition first (s0 : N) : firstInfo :=
  if s0 <? 0x80 then AS
  else if s0 <? 0xC2 then XX
  else if s0 <? 0xE0 then Lead 2 0x80 0xBF
  else if s0 =? 0xE0 then Lead 3 0xA0 0xBF
  else if s0 <? 0xED then Lead 3 0x80 0xBF
  else if s0 =? 0xED then Lead 3 0x80 0x9F
  else if s0 <? 0xF0 then Lead 3 0x80 0xBF
  else if s0 =? 0xF0 then Lead 4 0x90 0xBF
  else if s0 <? 0xF4 then Lead 4 0x80 0xBF
  else if s0 =? 0xF4 then Lead 4 0x80 0x8F
  else XX.

Definition locb : N := 0x80.
Definition hicb : N := 0xBF.
Definition maskx : N := 0x3F.
Definition mask2 : N := 0x1F.
Definition mask3 : N := 0x0F.
Definition mask4 : N := 0x07.

Definition out_of (lo hi : N) (c : ascii) : bool :=
  (byte_val c <? lo) || (hi <? byte_val c).

Definition bits (mask : N) (c : ascii) (shift : N) : N :=
  N.shiftl (N.land (byte_val c) mask) shift.

(** [utf8.DecodeRuneInString]: the first rune of [s] and its width in
    bytes; an invalid encoding decodes to [(RuneError, 1)], the empty
    string to [(RuneError, 0)]. *)
Definition DecodeRuneInString (s : string) : N * nat :=
  match s with
  | EmptyString => (RuneError, 0%nat)
  | String s0 rest =>
    match first (byte_val s0) with
    | AS => (byte_val s0, 1%nat)
    | XX => (RuneError, 1%nat)
    | Lead sz lo hi =>
      if (String.length s <? sz)%nat then (RuneError, 1%nat)
      else
        match rest with
        | EmptyString => (RuneError, 1%nat)
        | String s1 rest1 =>
          if out_of lo hi s1 then (RuneError, 1%nat)
          else if (sz <=? 2)%nat
          then (N.lor (bits mask2 s0 6) (bits maskx s1 0), 2%nat)
          else
            match rest1 with
            | EmptyString => (RuneError, 1%nat)
            | String s2 rest2 =>
              if out_of locb hicb s2 then (RuneError, 1%nat)
              else if (sz <=? 3)%nat
              then (N.lor (bits mask3 s0 12)
                      (N.lor (bits maskx s1 6) (bits maskx s2 0)), 3%nat)
              else
                match rest2 with
                | EmptyString => (RuneError, 1%nat)
                | String s3 _ =>
                  if out_of locb hicb s3 then (RuneError, 1%nat)
                  else (N.lor (bits mask4 s0 18)
                          (N.lor (bits maskx s1 12)
                             (N.lor (bits maskx s2 6) (bits maskx s3 0))),
                        4%nat)
                end
            end
        end
    end
  end.

End utf8.

(** ** Strings (package strings) *)

Module gostrings.

Definition is_upper (c : ascii) : bool :=
  (N_of_ascii "A" <=? N_of_ascii c) && (N_of_ascii c <=? N_of_ascii "Z").

Definition lower_byte (c : ascii) : ascii :=
  if is_upper c then ascii_of_N (N_of_ascii c + 32) else c.

Fixpoint isASCII (s : string) : bool :=
  match s with
  | EmptyString => true
  | String c rest => (N_of_ascii c <? utf8.RuneSelf) && isASCII rest
  end.

(** The ASCII path of [strings.ToLower]: every byte in 'A'..'Z' is moved
    to 'a'..'z', every other byte is kept. *)
Fixpoint ToLower_ascii (s : string) : string :=
  match s with
  | EmptyString => EmptyString
  | String c rest => String (lower_byte c) (ToLower_ascii rest)
  end.

(** [strings.ToLower].  On a string with a byte above 0x7F Go maps
    [unicode.ToLower] over the runes; the Unicode case tables are the
    standard library's and enter as the argument [unicode_lower]. *)
Definition ToLower (unicode_lower : string -> string) (s : string) : string :=
  if isASCII s then ToLower_ascii s else unicode_lower s.

(** [strings.Cut s "$"]. *)
Fixpoint Cut_dollar (s : string) : option (string * string) :=
  match s with
  | EmptyString => None
  | String c rest =>
    if Ascii.eqb c "$" then Some (EmptyString, rest)
    else match Cut_dollar rest with
         | Some (before, after) => Some (String c before, after)
         | None => None
         end
  end.

Fixpoint Contains_dollar (s : string) : bool :=
  match s with
  | EmptyString => false
  | String c rest => Ascii.eqb c "$" || Contains_dollar rest
  end.

End gostrings.

(** [slices.Contains] of k8s.io/utils/strings/slices. *)
Fixpoint slices_Contains (s : list string) (v : string) : bool :=
  match s with
  | [] => false
  | x :: rest => if String.eqb x v then true else slices_Contains rest v
  end.

(** ** Regular expressions (package regexp)

    The sink compiles two expressions.  Matching steps through the source
    rune by rune ([inputString.step]); an invalid byte is one rune,
    [utf8.RuneError], of width one. *)

Module regexp.

Fixpoint take_bytes (n : nat) (s : string) : string :=
  match n, s with
  | S k, String c rest => String c (take_bytes k rest)
  | _, _ => EmptyString
  end.

Fixpoint drop_bytes (n : nat) (s : string) : string :=
  match n, s with
  | S k, String _ rest => drop_bytes k rest
  | _, _ => s
  end.

Definition in_range (lo hi : ascii) (r : N) : bool :=
  (N_of_ascii lo <=? r) && (r <=? N_of_ascii hi).

(** The character classes of the two expressions, on runes. *)
Definition class_lower_digit (r : N) : bool :=
  in_range "a" "z" r || in_range "0" "9" r.

Definition class_upper (r : N) : bool := in_range "A" "Z" r.

Definition class_word (r : N) : bool :=
  in_range "a" "z" r || in_range "A" "Z" r || in_range "0" "9" r
  || (r =? N_of_ascii "_").

Definition class_invalid (r : N) : bool := negb (class_word r).

(** The compiled expressions of prometheus.go:
    [invalidCharsRegex] is [[^a-zA-Z0-9_]] and
    [camelCaseRegex] is [([a-z0-9])([A-Z])]. *)
Inductive Regexp : Type :=
| invalidCharsRegex
| camelCaseRegex.

(** A match anchored at the start of [src]: its width in bytes and the
    text of the groups, group 0 being the whole match. *)
Definition match_at (re : Regexp) (src : string) : option (nat * list string) :=
  match src with
  | EmptyString => None
  | _ =>
    let '(r1, w1) := utf8.DecodeRuneInString src in
    match re with
    | invalidCharsRegex =>
      if class_invalid r1 then Some (w1, [take_bytes w1 src]) else None
    | camelCaseRegex =>
      if class_lower_digit r1 then
        let tail := drop_bytes w1 src in
        match tail with
        | EmptyString => None
        | _ =>
          let '(r2, w2) := utf8.DecodeRuneInString tail in
          if class_upper r2
          then Some ((w1 + w2)%nat,
                     [take_bytes (w1 + w2) src; take_bytes w1 src;
                      take_bytes w2 tail])
          else None
        end
      else None
    end
  end.

(** *** Replacement templates ([Regexp.expand] and [extract]) *)

Definition is_digit (c : ascii) : bool := in_range "0" "9" (N_of_ascii c).

(** A byte that may occur in a variable name.  Templates are byte strings
    here; the letters of a name are the ASCII ones. *)
Definition is_name_byte (c : ascii) : bool := class_word (N_of_ascii c).

Fixpoint span_name (s : string) : string * string :=
  match s with
  | EmptyString => (EmptyString, EmptyString)
  | String c rest =>
    if is_name_byte c
    then let '(name, after) := span_name rest in (String c name, after)
    else (EmptyString, s)
  end.

(** The number a purely numeric name denotes; [None] is Go's [-1]. *)
Fixpoint parse_num (name : string) (num : N) : option N :=
  match name with
  | EmptyString => Some num
  | String c rest =>
    if negb (is_digit c) || (100000000 <=? num) then None
    else parse_num rest (num * 10 + (N_of_ascii c - N_of_ascii "0"))
  end.

Definition name_num (name : string) : option N :=
  match name with
  | String "0" (String _ _) => None
  | _ => parse_num name 0
  end.

(** [extract]: the variable at the start of what follows a dollar sign,
    as (name, number, rest); [None] when there is no well-formed
    variable. *)
Definition extract (str : string) : option (string * option N * string) :=
  match str with
  | EmptyString => None
  | String "{" braced =>
    match span_name braced with
    | (EmptyString, _) => None
    | (name, String "}" rest) => Some (name, name_num name, rest)
    | (_, _) => None
    end
  | _ =>
    match span_name str with
    | (EmptyString, _) => None
    | (name, rest) => Some (name, name_num name, rest)
    end
  end.

(** The text of group [num]; out of range gives the empty string.  A name
    that is not a number refers to a named group: neither expression has
    one, so it expands to nothing. *)
Definition submatch (groups : list string) (num : option N) : string :=
  match num with
  | Some n => default EmptyString (groups !! N.to_nat n)
  | None => EmptyString
  end.

Fixpoint expand_fuel (fuel : nat) (template : string) (groups : list string)
  : string :=
  match fuel with
  | O => template
  | S f =>
    match gostrings.Cut_dollar template with
    | None => template
    | Some (before, after) =>
      before +:+
      match after with
      | String "$" rest => String "$" (expand_fuel f rest groups)
      | _ =>
        match extract after with
        | None => String "$" (expand_fuel f after groups)
        | Some (_, num, rest) =>
          submatch groups num +:+ expand_fuel f rest groups
        end
      end
    end
  end.

Definition expand (template : string) (groups : list string) : string :=
  expand_fuel (String.length template) template groups.

(** *** [Regexp.ReplaceAllString]

    Leftmost matches, not overlapping: at each rune either a match starts
    there and its expansion is emitted, or the rune is copied. Without a
    dollar sign in [repl] only group 0 is passed on. *)
Fixpoint replaceAll (fuel : nat) (re : Regexp) (src repl : string) : string :=
  match fuel with
  | O => src
  | S f =>
    match src with
    | EmptyString => EmptyString
    | _ =>
      match match_at re src with
      | Some (w, groups) =>
        let groups :=
          if gostrings.Contains_dollar repl then groups else take 1 groups in
        expand repl groups +:+ replaceAll f re (drop_bytes w src) repl
      | None =>
        let '(_, w) := utf8.DecodeRuneInString src in
        take_bytes w src +:+ replaceAll f re (drop_bytes w src) repl
      end
    end
  end.

Definition ReplaceAllString (re : Regexp) (src repl : string) : string :=
  replaceAll (String.length src) re src repl.

End regexp.

(** ** pkg/sinks/prometheus.go: label names *)

Import regexp.

Definition defaultMetricLabels : list string :=
  ["name"; "namespace"; "reason"].

(** [sanitizeLabelName].  The argument of [strings.ToLower] has only ASCII
    bytes ([sanitize_ToLower_ascii] below), so its ASCII path is the one
    taken. *)
Definition sanitizeLabelName (label : string) : string :=
  let label := ReplaceAllString invalidCharsRegex label "_" in
  let label := ReplaceAllString camelCaseRegex label "${1}_{2}" in
  gostrings.ToLower_ascii label.

Definition getMetricLabelName (label : string) : string :=
  if slices_Contains defaultMetricLabels label then label
  else
    let labelName := "label_" +:+ sanitizeLabelName label in
    labelName.

Fixpoint getMetricLabelNames_loop (labelNames : list string) (labels : list string)
  : list string :=
  match labels with
  | [] => labelNames
  | label :: rest =>
    getMetricLabelNames_loop (labelNames ++ [getMetricLabelName label]) rest
  end.

Definition getMetricLabelNames (labels : list string) : list string :=
  getMetricLabelNames_loop [] labels.

(** ** Data model *)

Local Open Scope Z_scope.

(** [prometheus.Labels], a Go [map[string]string]. *)
Abbreviation prometheus_Labels := (gmap string string).

(** The fields of [kube.EnhancedObjectReference] and [kube.EnhancedEvent]
    that the sink reads.  [Count] is an [int32]. *)
Record EnhancedObjectReference : Type := {
  Kind : string;
  Name : string;
  Namespace : string;
  Labels : gmap string string
}.

Record EnhancedEvent : Type := {
  InvolvedObject : EnhancedObjectReference;
  Reason : string;
  Count : Z
}.

(** The configuration, behind the pointer [*PrometheusConfig].  A kind
    that a filter does not list reads as the nil slice, [None] here; a
    listed kind with a nil or an empty slice is the empty list, and the
    code treats the two alike. *)
Record PrometheusConfig : Type := {
  EventsMetricsNamePrefix : string;
  ReasonFilter : gmap string (list string);
  LabelFilter : gmap string (list string)
}.

(** A gauge holds a [float64].  The sink stores [float64(count)] for an
    [int32] count only; the conversion is exact, and the stored value is
    modelled by the integer it equals. *)
Definition float64 (count : Z) : Z := count.

(** The interface [PrometheusGaugeVec].  [With_Set labels v] is
    [With(labels).Set(v)], the only use the sink makes of [With];
    [Delete] also answers whether a series was removed.  The methods
    return a state of the implementation: one whose [With] can panic, as
    that of the client library does, keeps the panic in its state (see
    [checked_PrometheusGaugeVec]). *)
Class PrometheusGaugeVec (V : Type) : Type := {
  With_Set : prometheus_Labels -> Z -> V -> V;
  Delete : prometheus_Labels -> V -> bool * V
}.

(** The gauge vector of the client library behind that interface: the
    series it holds, by label set, under the descriptor it was created
    with.  [With(..).Set] creates or updates a series, [Delete] removes it
    if present.  This instance is the vector on label sets the library
    accepts; the library's validation of label sets, with the panic of
    [With], is in [labels_fit] and [checked_PrometheusGaugeVec]. *)
Record GaugeOpts : Type := {
  opts_Name : string;
  opts_Help : string
}.

Record GaugeVec : Type := {
  vec_opts : GaugeOpts;
  vec_labelNames : list string;
  vec_series : gmap (gmap string string) Z
}.

Definition GaugeVec_update (v : GaugeVec)
    (f : gmap (gmap string string) Z -> gmap (gmap string string) Z) : GaugeVec :=
  {| vec_opts := vec_opts v;
     vec_labelNames := vec_labelNames v;
     vec_series := f (vec_series v) |}.

#[export] Instance GaugeVec_PrometheusGaugeVec : PrometheusGaugeVec GaugeVec := {
  With_Set labels value v := GaugeVec_update v (insert labels value);
  Delete labels v :=
    (bool_decide (is_Some (vec_series v !! labels)),
     GaugeVec_update v (delete labels))
}.

Definition NewGaugeVec (opts : GaugeOpts) (labelNames : list string) : GaugeVec :=
  {| vec_opts := opts; vec_labelNames := labelNames; vec_series := ∅ |}.

(** [newGaugeVec] creates the vector and registers it with the default
    registry of the client library.  The registry is not part of the
    model, and neither is the panic of [MustRegister] on a vector it
    refuses, one with two equal label names among others: the definition
    gives the vector of a registration that went through, and a statement
    that needs the registration to have gone through asks for distinct
    label names. *)
Definition newGaugeVec (opts : GaugeOpts) (labelNames : list string) : GaugeVec :=
  let v := NewGaugeVec opts labelNames in
  v.

(** The mock of the test file: it records the calls it receives.  Its
    [Delete] answers [true]. *)
Inductive GaugeCall : Type :=
| CallSet (labels : prometheus_Labels) (value : Z)
| CallDelete (labels : prometheus_Labels).

Definition mockGuageVec : Type := list GaugeCall.

#[export] Instance mockGuageVec_PrometheusGaugeVec : PrometheusGaugeVec mockGuageVec := {
  With_Set labels value calls := calls ++ [CallSet labels value];
  Delete labels calls := (true, calls ++ [CallDelete labels])
}.

(** The sink.  [metricsByKind] holds interface values; a kind without an
    entry reads as the nil interface.  Each kind has a gauge vector of its
    own. *)
Record PrometheusSink (V : Type) : Type := {
  cfg : PrometheusConfig;
  kinds : list string;
  metricsByKind : gmap string V;
  metricLabelsByKind : gmap string (list string)
}.

Arguments cfg {V} _.
Arguments kinds {V} _.
Arguments metricsByKind {V} _.
Arguments metricLabelsByKind {V} _.

(** A Go [error]; [None] is [nil]. *)
Definition error : Type := option string.

(** What a call comes to: it returns, or it panics. *)
Inductive result (A : Type) : Type :=
| Ok (a : A)
| Panic.

Arguments Ok {A} a.
Arguments Panic {A}.

Definition result_bind {A B : Type} (r : result A) (k : A -> result B) : result B :=
  match r with
  | Ok a => k a
  | Panic => Panic
  end.

(** ** The label set builder *)

Fixpoint getMetricLabels_loop (obj : EnhancedObjectReference)
    (prometheusLabels : prometheus_Labels) (metricLabels : list string)
  : prometheus_Labels :=
  match metricLabels with
  | [] => prometheusLabels
  | label :: rest =>
    let prometheusLabels :=
      if negb (slices_Contains defaultMetricLabels label)
      then <[getMetricLabelName label := default EmptyString (Labels obj !! label)]>
             prometheusLabels
      else prometheusLabels in
    getMetricLabels_loop obj prometheusLabels rest
  end.

Definition getMetricLabels (metricLabels : list string)
    (obj : EnhancedObjectReference) (reason : string) : prometheus_Labels :=
  let prometheusLabels : prometheus_Labels :=
    <["name" := Name obj]>
      (<["namespace" := Namespace obj]> (<["reason" := reason]> ∅)) in
  getMetricLabels_loop obj prometheusLabels metricLabels.

(** ** The event router *)

Section Router.

Context {V : Type} `{PrometheusGaugeVec V}.

Definition SetEventCount (metric : V) (metricLabels : list string)
    (obj : EnhancedObjectReference) (reason : string) (count : Z) : V :=
  let labels := getMetricLabels metricLabels obj reason in
  With_Set labels (float64 count) metric.

Definition DeleteEventCount (metric : V) (metricLabels : list string)
    (obj : EnhancedObjectReference) (reason : string) : V :=
  let labels := getMetricLabels metricLabels obj reason in
  snd (Delete labels metric).

(** One turn of the loop of [Send], on the gauge vector of the kind. *)
Definition Send_step (metricLabels : list string) (ev : EnhancedEvent)
    (metric : V) (reason : string) : V :=
  if String.eqb (Reason ev) reason
  then SetEventCount metric metricLabels (InvolvedObject ev) reason (Count ev)
  else DeleteEventCount metric metricLabels (InvolvedObject ev) reason.

(** The loop of [Send] over [o.cfg.ReasonFilter[kind]].  Each turn reads
    [o.metricsByKind[kind]] and [o.metricLabelsByKind[kind]]; a method call
    on the nil interface panics. *)
Fixpoint Send_loop (metricLabelsByKind : gmap string (list string))
    (ev : EnhancedEvent) (kind : string) (reasons : list string)
    (metrics : gmap string V) : result (gmap string V) :=
  match reasons with
  | [] => Ok metrics
  | reason :: rest =>
    match metrics !! kind with
    | None => Panic
    | Some metric =>
      let metricLabels := default [] (metricLabelsByKind !! kind) in
      Send_loop metricLabelsByKind ev kind rest
        (<[kind := Send_step metricLabels ev metric reason]> metrics)
    end
  end.

(** [Send]: the error it returns and the sink after the call. *)
Definition Send (o : PrometheusSink V) (ev : EnhancedEvent)
  : result (error * PrometheusSink V) :=
  let kind := Kind (InvolvedObject ev) in
  if slices_Contains (kinds o) kind then
    result_bind
      (Send_loop (metricLabelsByKind o) ev kind
         (default [] (ReasonFilter (cfg o) !! kind)) (metricsByKind o))
      (fun metrics =>
         Ok (None,
             {| cfg := cfg o; kinds := kinds o; metricsByKind := metrics;
                metricLabelsByKind := metricLabelsByKind o |}))
  else Ok (None, o).

End Router.

(** ** The registry *)

(** The labels of a kind: [defaultMetricLabels], then the entries of
    [config.LabelFilter[kind]] that are not among them. *)
Fixpoint appendLabels (labels : list string) (filter : list string)
  : list string :=
  match filter with
  | [] => labels
  | label :: rest =>
    appendLabels
      (if negb (slices_Contains defaultMetricLabels label)
       then labels ++ [label] else labels)
      rest
  end.

Definition kindLabels (config : PrometheusConfig) (kind : string) : list string :=
  let labels := defaultMetricLabels in
  match LabelFilter config !! kind with
  | Some filter => appendLabels labels filter
  | None => labels
  end.

Section Registry.

(** [unicode.ToLower] mapped over a string that is not ASCII. *)
Variable unicode_lower : string -> string.

Definition metricName (config : PrometheusConfig) (kind : string) : string :=
  EventsMetricsNamePrefix config +:+ gostrings.ToLower unicode_lower kind
    +:+ "_event_count".

(** One turn of the loop over [config.ReasonFilter]. *)
Definition NewPrometheusSink_step (config : PrometheusConfig)
    (kind : string) (reasons : list string)
    (acc : list string * gmap string GaugeVec * gmap string (list string))
  : list string * gmap string GaugeVec * gmap string (list string) :=
  let '(kinds, metricsByKind, metricLabelsByKind) := acc in
  let labels := kindLabels config kind in
  (kinds ++ [kind],
   <[kind := newGaugeVec
               {| opts_Name := metricName config kind;
                  opts_Help := "Event counts for " +:+ kind +:+ " resources." |}
               (getMetricLabelNames labels)]> metricsByKind,
   <[kind := labels]> metricLabelsByKind).

(** [NewPrometheusSink].  The first component is the caller's
    configuration after the call: [config] is a pointer and the default
    prefix is written through it; the sink keeps that same pointer.  The
    order in which Go ranges over a map is not fixed; [map_fold] picks
    one. *)
Definition NewPrometheusSink (config : PrometheusConfig)
  : PrometheusConfig * (PrometheusSink GaugeVec * error) :=
  let config :=
    if String.eqb (EventsMetricsNamePrefix config) EmptyString
    then {| EventsMetricsNamePrefix := "event_exporter_";
            ReasonFilter := ReasonFilter config;
            LabelFilter := LabelFilter config |}
    else config in
  let '(kinds, metricsByKind, metricLabelsByKind) :=
    map_fold (NewPrometheusSink_step config) ([], ∅, ∅) (ReasonFilter config) in
  (config,
   ({| cfg := config; kinds := kinds; metricsByKind := metricsByKind;
       metricLabelsByKind := metricLabelsByKind |}, None)).

(** The gauge vector the loop makes for a kind. *)
Definition kindGaugeVec (config : PrometheusConfig) (kind : string) : GaugeVec :=
  newGaugeVec
    {| opts_Name := metricName config kind;
       opts_Help := "Event counts for " +:+ kind +:+ " resources." |}
    (getMetricLabelNames (kindLabels config kind)).

End Registry.

(** ** Notions the statements below use *)

(** Every byte of a string passes a test. *)
Fixpoint all_bytes (p : ascii -> bool) (s : string) : bool :=
  match s with
  | EmptyString => true
  | String c rest => p c && all_bytes p rest
  end.

Definition is_ascii_byte (c : ascii) : bool :=
  (N_of_ascii c <? utf8.RuneSelf)%N.

(** The bytes that [^[a-z0-9_]*$] admits. *)
Definition is_lower_digit_underscore (c : ascii) : bool :=
  class_lower_digit (N_of_ascii c) || Ascii.eqb c "_".

(** A label key as Go has it after a lookup: the object's value, or the
    zero value of [string]. *)
Definition labelValue (obj : EnhancedObjectReference) (label : string) : string :=
  default EmptyString (Labels obj !! label).

(** The gauge vector holds a series of the object [(name, namespace)] for
    [reason], whatever the other labels of the series are. *)
Definition has_series (v : GaugeVec) (name namespace reason : string) : Prop :=
  ∃ (labels : gmap string string) (value : Z),
    vec_series v !! labels = Some value
    ∧ labels !! "name" = Some name
    ∧ labels !! "namespace" = Some namespace
    ∧ labels !! "reason" = Some reason.

(** Every kind the sink routes has a gauge vector, as in the sinks that
    [NewPrometheusSink] and the test build. *)
Definition sink_wf {V : Type} (o : PrometheusSink V) : Prop :=
  ∀ kind, slices_Contains (kinds o) kind = true → is_Some (metricsByKind o !! kind).

(** The call one turn of the loop of [Send] makes. *)
Definition Send_call (metricLabels : list string) (ev : EnhancedEvent)
    (reason : string) : GaugeCall :=
  if String.eqb (Reason ev) reason
  then CallSet (getMetricLabels metricLabels (InvolvedObject ev) reason)
         (float64 (Count ev))
  else CallDelete (getMetricLabels metricLabels (InvolvedObject ev) reason).

(** A recorded call, made on a gauge vector. *)
Definition apply_call {V : Type} `{PrometheusGaugeVec V} (metric : V)
    (c : GaugeCall) : V :=
  match c with
  | CallSet labels value => With_Set labels value metric
  | CallDelete labels => snd (Delete labels metric)
  end.

(** What the loop of [Send] does to the series of a gauge vector. *)
Definition series_step (metricLabels : list string) (ev : EnhancedEvent)
    (series : gmap (gmap string string) Z) (reason : string)
  : gmap (gmap string string) Z :=
  if String.eqb (Reason ev) reason
  then <[getMetricLabels metricLabels (InvolvedObject ev) reason := float64 (Count ev)]> series
  else delete (getMetricLabels metricLabels (InvolvedObject ev) reason) series.

(** A sink built by hand as the test file builds its own, here with two
    reasons configured for pods; the event of the test file; and a later
    event for the same pod, whose label has changed meanwhile. *)
Definition testConfig : PrometheusConfig :=
  {| EventsMetricsNamePrefix := "test_prefix_";
     ReasonFilter := {[ "Pod" := ["Starting"; "Creating"] ]};
     LabelFilter := {[ "Pod" := ["test_label"] ]} |}.

Definition testSink {V : Type} (metric : V) : PrometheusSink V :=
  {| cfg := testConfig;
     kinds := ["Pod"];
     metricsByKind := {[ "Pod" := metric ]};
     metricLabelsByKind := {[ "Pod" := defaultMetricLabels ++ ["test_label"] ]} |}.

Definition mockEvent (kind name namespace : string) (labels : gmap string string)
    (reason : string) (count : Z) : EnhancedEvent :=
  {| InvolvedObject :=
       {| Kind := kind; Name := name; Namespace := namespace; Labels := labels |};
     Reason := reason;
     Count := count |}.

Definition testEvent : EnhancedEvent :=
  mockEvent "Pod" "testpod" "testnamespace"
    {[ "test_label" := "test_label_value" ]} "Starting" 1.

Definition relabelledEvent : EnhancedEvent :=
  mockEvent "Pod" "testpod" "testnamespace"
    {[ "test_label" := "other_value" ]} "Creating" 2.

Definition testGaugeVec : GaugeVec :=
  NewGaugeVec
    {| opts_Name := "test_prefix_pod_event_count";
       opts_Help := "Event counts for Pod resources." |}
    (getMetricLabelNames (defaultMetricLabels ++ ["test_label"])).

(** The label set of the series the first event creates. *)
Definition staleLabels : gmap string string :=
  getMetricLabels (defaultMetricLabels ++ ["test_label"])
    (InvolvedObject testEvent) "Starting".

Definition podWith (labels : gmap string string) : EnhancedObjectReference :=
  {| Kind := "Pod"; Name := "p1"; Namespace := "ns"; Labels := labels |}.

(** A configuration that lists an extra label key twice and leaves the
    prefix empty. *)
Definition repeatedExtraConfig : PrometheusConfig :=
  {| EventsMetricsNamePrefix := EmptyString;
     ReasonFilter := {[ "Pod" := ["Starting"] ]};
     LabelFilter := {[ "Pod" := ["app"; "app"] ]} |}.

(** ** Further notions *)

(** A byte that is not an upper-case ASCII letter. *)
Definition no_upper_byte (c : ascii) : bool := negb (gostrings.is_upper c).

(** The bytes [sanitizeLabelName] can return: those of [[a-z0-9_]] and the
    two braces of the replacement template. *)
Definition is_sanitized_byte (c : ascii) : bool :=
  is_lower_digit_underscore c || Ascii.eqb c "{" || Ascii.eqb c "}".

Definition is_word_or_brace (c : ascii) : bool :=
  is_name_byte c || Ascii.eqb c "{" || Ascii.eqb c "}".

(** [Close] does nothing. *)
Definition Close {V : Type} (o : PrometheusSink V) : PrometheusSink V := o.

(** The keys of a label list that [getMetricLabels] stores: those that are
    not mandatory. *)
Definition extraKeys (metricLabels : list string) : list string :=
  filter (fun key => key ∉ defaultMetricLabels) metricLabels.


(** Two events for one kind are about different objects. *)
Definition other_object (a b : EnhancedObjectReference) : Prop :=
  Name a <> Name b \/ Namespace a <> Namespace b.

(** The label set [Send] builds for an event of a sink and a reason. *)
Definition eventLabels {V : Type} (o : PrometheusSink V) (ev : EnhancedEvent)
    (reason : string) : gmap string string :=
  getMetricLabels
    (default [] (metricLabelsByKind o !! Kind (InvolvedObject ev)))
    (InvolvedObject ev) reason.

(** The reasons [Send] goes through for an event. *)
Definition eventReasons {V : Type} (o : PrometheusSink V) (ev : EnhancedEvent)
  : list string :=
  default [] (ReasonFilter (cfg o) !! Kind (InvolvedObject ev)).

(** ** The checks of the client library

    [MustRegister] and [With] panic on what the client library does not
    accept.  What it demands of label names and label sets is written out
    here, as far as this sink can run into it; valid metric and label
    names, and a metric name not registered before, are further demands
    of [MustRegister] that are not modelled. *)

(** [utf8.ValidString]. *)
Fixpoint utf8_ValidString (s : string) : bool :=
  match s with
  | EmptyString => true
  | String si rest =>
    if (utf8.byte_val si <? utf8.RuneSelf)%N then utf8_ValidString rest
    else
      match utf8.first (utf8.byte_val si) with
      | utf8.AS => utf8_ValidString rest
      | utf8.XX => false
      | utf8.Lead size lo hi =>
        if (String.length s <? size)%nat then false
        else
          match rest with
          | EmptyString => false
          | String c1 rest1 =>
            if utf8.out_of lo hi c1 then false
            else if (size =? 2)%nat then utf8_ValidString rest1
            else
              match rest1 with
              | EmptyString => false
              | String c2 rest2 =>
                if utf8.out_of utf8.locb utf8.hicb c2 then false
                else if (size =? 3)%nat then utf8_ValidString rest2
                else
                  match rest2 with
                  | EmptyString => false
                  | String c3 rest3 =>
                    if utf8.out_of utf8.locb utf8.hicb c3 then false
                    else utf8_ValidString rest3
                  end
              end
          end
      end
  end.








(** A configuration whose label filter lists a mandatory key. *)
Definition mandatoryExtraConfig : PrometheusConfig :=
  {| EventsMetricsNamePrefix := "test_prefix_";
     ReasonFilter := {[ "Pod" := ["Starting"] ]};
     LabelFilter := {[ "Pod" := ["name"; "test_label"] ]} |}.

Ltac each_byte c := destruct c as [[] [] [] [] [] [] [] []].

(** ** The sanitizer *)

Local Open Scope N_scope.

Lemma N_lor_ge_l (a b : N) : 128 <= a -> 128 <= N.lor a b.
Proof.
  intros Ha.
  assert (Hlog : 7 <= N.log2 (N.lor a b)).
  { rewrite N.log2_lor. etransitivity; [|apply N.le_max_l].
    change 7 with (N.log2 128). by apply N.log2_le_mono. }
  destruct (N.lt_ge_cases (N.lor a b) 128) as [Hlt|]; [|done].
  destruct (N.eq_dec (N.lor a b) 0) as [H0|H0].
  - rewrite H0 in Hlog. vm_compute in Hlog. by destruct Hlog.
  - apply (N.log2_lt_pow2 _ 7) in Hlt; lia.
Qed.

Lemma N_lor_ge_r (a b : N) : 128 <= b -> 128 <= N.lor a b.
Proof. rewrite N.lor_comm. apply N_lor_ge_l. Qed.

Lemma first_lead (s0 : ascii) (sz : nat) (lo hi : N) :
  utf8.first (utf8.byte_val s0) = utf8.Lead sz lo hi ->
  (sz = 2%nat /\ (128 <=? utf8.bits utf8.mask2 s0 6) = true)
  \/ (sz = 3%nat /\ ((128 <=? utf8.bits utf8.mask3 s0 12) = true
                      \/ (lo = 0xA0 /\ hi = 0xBF)))
  \/ (sz = 4%nat /\ ((128 <=? utf8.bits utf8.mask4 s0 18) = true
                      \/ (lo = 0x90 /\ hi = 0xBF))).
Proof.
  each_byte s0; vm_compute; intros [= <- <- <-] || discriminate; tauto.
Qed.

Lemma second_byte_A0 (c : ascii) :
  utf8.out_of 0xA0 0xBF c = false -> (128 <=? utf8.bits utf8.maskx c 6) = true.
Proof. each_byte c; vm_compute; congruence. Qed.

Lemma second_byte_90 (c : ascii) :
  utf8.out_of 0x90 0xBF c = false -> (128 <=? utf8.bits utf8.maskx c 12) = true.
Proof. each_byte c; vm_compute; congruence. Qed.

Lemma class_word_lt (r : N) : class_word r = true -> r < 128.
Proof.
  unfold class_word, in_range. change (N_of_ascii "z") with 122.
  change (N_of_ascii "Z") with 90. change (N_of_ascii "9") with 57.
  change (N_of_ascii "_") with 95.
  rewrite !orb_true_iff, !andb_true_iff, !N.leb_le, N.eqb_eq. lia.
Qed.

(** A rune of the class [[a-zA-Z0-9_]] is decoded from a single byte, the
    one it equals: a longer or an invalid encoding decodes to a rune of
    128 or more. *)
Lemma DecodeRuneInString_word (c : ascii) (rest : string) (r : N) (w : nat) :
  utf8.DecodeRuneInString (String c rest) = (r, w) ->
  class_word r = true ->
  w = 1%nat /\ r = N_of_ascii c.
Proof.
  intros Hdec Hword. apply class_word_lt in Hword.
  assert (Herr : ~ utf8.RuneError < 128) by (vm_compute; discriminate).
  revert Hdec. unfold utf8.DecodeRuneInString.
  destruct (utf8.first (utf8.byte_val c)) as [| |sz lo hi] eqn:Hfirst.
  - by intros [= <- <-].
  - intros [= <- <-]. by destruct Herr.
  - apply first_lead in Hfirst.
    repeat match goal with
    | |- (if ?b then _ else _) = _ -> _ => destruct b eqn:?
    | |- match ?s with EmptyString => _ | String _ _ => _ end = _ -> _ => destruct s
    | |- (utf8.RuneError, _) = _ -> _ => intros [= <- <-]; by destruct Herr
    end.
    all: intros [= <- <-]; exfalso; apply N.lt_nge in Hword; apply Hword.
    all: destruct Hfirst as [[-> Hb]|[[-> Hb]|[-> Hb]]]; try discriminate.
    + apply N_lor_ge_l. by apply N.leb_le.
    + destruct Hb as [Hb|[-> ->]].
      * apply N_lor_ge_l. by apply N.leb_le.
      * apply N_lor_ge_r, N_lor_ge_l. by apply N.leb_le, second_byte_A0.
    + destruct Hb as [Hb|[-> ->]].
      * apply N_lor_ge_l. by apply N.leb_le.
      * apply N_lor_ge_r, N_lor_ge_l. by apply N.leb_le, second_byte_90.
Qed.

Lemma DecodeRuneInString_width (c : ascii) (rest : string) :
  (1 <= snd (utf8.DecodeRuneInString (String c rest)))%nat.
Proof.
  unfold utf8.DecodeRuneInString.
  repeat match goal with
  | |- context [if ?b then _ else _] => destruct b
  | |- context [match ?s with EmptyString => _ | String _ _ => _ end] => destruct s
  | |- context [match ?f with utf8.AS => _ | _ => _ end] => destruct f
  end; simpl; lia.
Qed.

Lemma DecodeRuneInString_ascii (c : ascii) (rest : string) :
  (N_of_ascii c <? utf8.RuneSelf) = true ->
  utf8.DecodeRuneInString (String c rest) = (N_of_ascii c, 1%nat).
Proof.
  intros Hc. unfold utf8.DecodeRuneInString, utf8.first, utf8.byte_val.
  change utf8.RuneSelf with 0x80 in Hc. by rewrite Hc.
Qed.

Lemma length_drop_bytes (n : nat) (s : string) :
  String.length (drop_bytes n s) = (String.length s - n)%nat.
Proof.
  revert s. induction n as [|n IH]; intros [|c s]; simpl; try done.
Qed.

Lemma all_bytes_app (p : ascii -> bool) (s t : string) :
  all_bytes p (s +:+ t) = all_bytes p s && all_bytes p t.
Proof. induction s as [|c s IH]; simpl; [done|]. by rewrite IH, andb_assoc. Qed.

Lemma all_bytes_impl (p q : ascii -> bool) (s : string) :
  (forall c, p c = true -> q c = true) ->
  all_bytes p s = true -> all_bytes q s = true.
Proof.
  intros Hpq. induction s as [|c s IH]; simpl; [done|].
  intros [Hc Hs]%andb_true_iff. rewrite (Hpq _ Hc). by apply IH.
Qed.

Lemma isASCII_all_bytes (s : string) :
  gostrings.isASCII s = all_bytes is_ascii_byte s.
Proof. induction s as [|c s IH]; simpl; [done|]. by rewrite IH. Qed.

Lemma is_name_byte_ascii (c : ascii) :
  is_name_byte c = true -> is_ascii_byte c = true.
Proof.
  intros Hc%class_word_lt. apply N.ltb_lt. exact Hc.
Qed.

(** The first replacement leaves only bytes of [[a-zA-Z0-9_]]. *)
Lemma replaceAll_invalidChars_word (fuel : nat) (src : string) :
  (String.length src <= fuel)%nat ->
  all_bytes is_name_byte (replaceAll fuel invalidCharsRegex src "_") = true.
Proof.
  revert src. induction fuel as [|fuel IH]; intros [|c rest] Hlen;
    simpl in Hlen; try done; try lia.
  cbn [replaceAll]. unfold match_at.
  pose proof (DecodeRuneInString_width c rest) as Hw.
  destruct (utf8.DecodeRuneInString (String c rest)) as [r w] eqn:Hdec.
  simpl in Hw.
  destruct (class_invalid r) eqn:Hclass.
  - change (expand "_" _) with "_". rewrite all_bytes_app, IH; [done|].
    rewrite length_drop_bytes. simpl. lia.
  - apply negb_false_iff in Hclass.
    destruct (DecodeRuneInString_word _ _ _ _ Hdec Hclass) as [-> ->].
    cbn [take_bytes drop_bytes]. rewrite all_bytes_app. cbn [all_bytes].
    unfold is_name_byte at 1. rewrite Hclass. cbn [andb].
    apply IH. lia.
Qed.

(** The second replacement keeps an ASCII string ASCII. *)
Lemma replaceAll_camelCase_ascii (fuel : nat) (src : string) :
  (String.length src <= fuel)%nat ->
  all_bytes is_ascii_byte src = true ->
  all_bytes is_ascii_byte (replaceAll fuel camelCaseRegex src "${1}_{2}") = true.
Proof.
  revert src. induction fuel as [|fuel IH]; intros [|c rest] Hlen Hsrc;
    simpl in Hlen; try done; try lia.
  cbn [replaceAll]. unfold match_at.
  cbn [all_bytes] in Hsrc. apply andb_true_iff in Hsrc as [Hc Hrest].
  rewrite (DecodeRuneInString_ascii c rest Hc).
  cbn [drop_bytes take_bytes].
  assert (Hcopy : all_bytes is_ascii_byte
            (String c EmptyString +:+ replaceAll fuel camelCaseRegex rest "${1}_{2}") = true).
  { rewrite all_bytes_app. cbn [all_bytes]. rewrite Hc. apply IH; [lia|done]. }
  destruct (class_lower_digit (N_of_ascii c)); [|exact Hcopy].
  destruct rest as [|c2 rest2]; [exact Hcopy|].
  cbn [all_bytes] in Hrest. apply andb_true_iff in Hrest as [Hc2 Hrest2].
  rewrite (DecodeRuneInString_ascii c2 rest2 Hc2).
  destruct (class_upper (N_of_ascii c2)); [|exact Hcopy].
  cbn [drop_bytes take_bytes Nat.add].
  change (gostrings.Contains_dollar "${1}_{2}") with true. cbv iota.
  change (expand "${1}_{2}" ?g) with (String c "_{2}").
  rewrite all_bytes_app. cbn [all_bytes]. rewrite Hc.
  apply IH; [simpl in Hlen; lia|done].
Qed.

(** [strings.ToLower] is on its ASCII path in [sanitizeLabelName]. *)
Lemma sanitize_ToLower_ascii (unicode_lower : string -> string) (label : string) :
  gostrings.ToLower unicode_lower
    (ReplaceAllString camelCaseRegex
       (ReplaceAllString invalidCharsRegex label "_") "${1}_{2}")
  = sanitizeLabelName label.
Proof.
  unfold gostrings.ToLower, sanitizeLabelName.
  rewrite isASCII_all_bytes. unfold ReplaceAllString at 1.
  rewrite replaceAll_camelCase_ascii; [done|done|].
  apply (all_bytes_impl is_name_byte); [apply is_name_byte_ascii|].
  by apply replaceAll_invalidChars_word.
Qed.

(** *** Lengths: a prefixed key is never the key it was made from *)

Lemma length_app_string (s t : string) :
  String.length (s +:+ t) = (String.length s + String.length t)%nat.
Proof. induction s as [|c s IH]; simpl; [done|]. by rewrite IH. Qed.

Lemma length_ToLower_ascii (s : string) :
  String.length (gostrings.ToLower_ascii s) = String.length s.
Proof. induction s as [|c s IH]; simpl; [done|]. by rewrite IH. Qed.

Lemma lower_byte_ascii (c : ascii) :
  is_ascii_byte c = true -> is_ascii_byte (gostrings.lower_byte c) = true.
Proof. destruct c as [[] [] [] [] [] [] [] []]; vm_compute; congruence. Qed.

Lemma ToLower_ascii_ascii (s : string) :
  all_bytes is_ascii_byte s = true ->
  all_bytes is_ascii_byte (gostrings.ToLower_ascii s) = true.
Proof.
  induction s as [|c s IH]; cbn [all_bytes gostrings.ToLower_ascii]; [done|].
  intros [Hc Hs]%andb_true_iff. by rewrite lower_byte_ascii, IH.
Qed.

(** On an ASCII string the first replacement keeps the length. *)
Lemma replaceAll_invalidChars_length (fuel : nat) (src : string) :
  (String.length src <= fuel)%nat ->
  all_bytes is_ascii_byte src = true ->
  String.length (replaceAll fuel invalidCharsRegex src "_") = String.length src.
Proof.
  revert src. induction fuel as [|fuel IH]; intros [|c rest] Hlen Hsrc;
    simpl in Hlen; try done; try lia.
  cbn [replaceAll]. unfold match_at.
  cbn [all_bytes] in Hsrc. apply andb_true_iff in Hsrc as [Hc Hrest].
  rewrite (DecodeRuneInString_ascii c rest Hc).
  cbn [drop_bytes take_bytes].
  destruct (class_invalid (N_of_ascii c)).
  - change (expand "_" _) with "_". cbn [drop_bytes].
    rewrite length_app_string, IH by (done || lia). done.
  - cbn [drop_bytes take_bytes].
    rewrite length_app_string, IH by (done || lia). done.
Qed.

(** The second replacement does not shorten an ASCII string. *)
Lemma replaceAll_camelCase_length (fuel : nat) (src : string) :
  (String.length src <= fuel)%nat ->
  all_bytes is_ascii_byte src = true ->
  (String.length src
   <= String.length (replaceAll fuel camelCaseRegex src "${1}_{2}"))%nat.
Proof.
  revert src. induction fuel as [|fuel IH]; intros [|c rest] Hlen Hsrc;
    simpl in Hlen; try done; try lia.
  cbn [replaceAll]. unfold match_at.
  cbn [all_bytes] in Hsrc. apply andb_true_iff in Hsrc as [Hc Hrest].
  rewrite (DecodeRuneInString_ascii c rest Hc).
  cbn [drop_bytes take_bytes].
  assert (Hcopy : (String.length (String c rest)
            <= String.length (String c EmptyString +:+
                 replaceAll fuel camelCaseRegex rest "${1}_{2}"))%nat).
  { rewrite length_app_string. cbn [String.length].
    pose proof (IH rest ltac:(lia) Hrest). lia. }
  destruct (class_lower_digit (N_of_ascii c)); [|exact Hcopy].
  destruct rest as [|c2 rest2]; [exact Hcopy|].
  cbn [all_bytes] in Hrest. apply andb_true_iff in Hrest as [Hc2 Hrest2].
  rewrite (DecodeRuneInString_ascii c2 rest2 Hc2).
  destruct (class_upper (N_of_ascii c2)); [|exact Hcopy].
  cbn [drop_bytes take_bytes Nat.add].
  change (gostrings.Contains_dollar "${1}_{2}") with true. cbv iota.
  change (expand "${1}_{2}" ?g) with (String c "_{2}").
  rewrite length_app_string. cbn [String.length] in *.
  pose proof (IH rest2 ltac:(lia) Hrest2). lia.
Qed.

Lemma sanitizeLabelName_ascii (label : string) :
  all_bytes is_ascii_byte (sanitizeLabelName label) = true.
Proof.
  unfold sanitizeLabelName. apply ToLower_ascii_ascii.
  apply replaceAll_camelCase_ascii; [done|].
  apply (all_bytes_impl is_name_byte); [apply is_name_byte_ascii|].
  by apply replaceAll_invalidChars_word.
Qed.

Lemma sanitizeLabelName_length (label : string) :
  all_bytes is_ascii_byte label = true ->
  (String.length label <= String.length (sanitizeLabelName label))%nat.
Proof.
  intros Hascii. unfold sanitizeLabelName. rewrite length_ToLower_ascii.
  etransitivity; [|apply replaceAll_camelCase_length].
  - unfold ReplaceAllString at 1.
    by rewrite replaceAll_invalidChars_length.
  - done.
  - apply (all_bytes_impl is_name_byte); [apply is_name_byte_ascii|].
    by apply replaceAll_invalidChars_word.
Qed.

(** A prefixed key differs from the key it was made from. *)
Lemma prefixed_neq (label : string) :
  "label_" +:+ sanitizeLabelName label <> label.
Proof.
  intros Heq.
  assert (Hascii : all_bytes is_ascii_byte label = true).
  { rewrite <- Heq, all_bytes_app, sanitizeLabelName_ascii. reflexivity. }
  pose proof (sanitizeLabelName_length label Hascii) as Hlen.
  apply (f_equal String.length) in Heq.
  rewrite length_app_string in Heq. cbn [String.length] in Heq. lia.
Qed.

(** ** Label keys and the label set builder *)

Lemma slices_Contains_elem_of (s : list string) (v : string) :
  slices_Contains s v = true <-> v ∈ s.
Proof.
  induction s as [|x s IH]; simpl.
  - split; [done|]. by intros ?%not_elem_of_nil.
  - rewrite elem_of_cons. destruct (String.eqb_spec x v) as [->|Hne].
    + split; [by left|done].
    + rewrite IH. split; [by right|]. by intros [->|].
Qed.

Lemma slices_Contains_not_elem_of (s : list string) (v : string) :
  slices_Contains s v = false <-> v ∉ s.
Proof.
  rewrite <- slices_Contains_elem_of. by destruct (slices_Contains s v).
Qed.

Lemma getMetricLabelName_default (label : string) :
  slices_Contains defaultMetricLabels label = true ->
  getMetricLabelName label = label.
Proof. unfold getMetricLabelName. by intros ->. Qed.

Lemma getMetricLabelName_other (label : string) :
  slices_Contains defaultMetricLabels label = false ->
  getMetricLabelName label = "label_" +:+ sanitizeLabelName label.
Proof. unfold getMetricLabelName. by intros ->. Qed.

(** A prefixed key is none of the mandatory keys. *)
Lemma prefixed_not_default (label key : string) :
  slices_Contains defaultMetricLabels label = false ->
  slices_Contains defaultMetricLabels key = true ->
  getMetricLabelName label <> key.
Proof.
  intros Hl Hk Heq. rewrite getMetricLabelName_other in Heq by done.
  subst key. discriminate Hk.
Qed.

Lemma getMetricLabels_loop_default (obj : EnhancedObjectReference)
    (metricLabels : list string) (acc : gmap string string) (key : string) :
  slices_Contains defaultMetricLabels key = true ->
  getMetricLabels_loop obj acc metricLabels !! key = acc !! key.
Proof.
  intros Hkey. revert acc.
  induction metricLabels as [|label rest IH]; intros acc;
    cbn [getMetricLabels_loop]; [done|].
  rewrite IH. destruct (slices_Contains defaultMetricLabels label) eqn:Hl;
    cbn [negb]; [done|].
  apply lookup_insert_ne. by apply prefixed_not_default.
Qed.

(** The value the loop leaves under a metric label key [n]: [v], when
    the key held [v] before or some extra key of the list is stored under
    [n], and every extra key of the list stored under [n] has value [v]. *)
Lemma getMetricLabels_loop_extra (obj : EnhancedObjectReference)
    (metricLabels : list string) (acc : gmap string string) (n v : string) :
  (acc !! n = Some v
   \/ exists key, key ∈ metricLabels
        /\ slices_Contains defaultMetricLabels key = false
        /\ getMetricLabelName key = n) ->
  (forall key, key ∈ metricLabels ->
     slices_Contains defaultMetricLabels key = false ->
     getMetricLabelName key = n -> labelValue obj key = v) ->
  getMetricLabels_loop obj acc metricLabels !! n = Some v.
Proof.
  revert acc. induction metricLabels as [|label rest IH]; intros acc Hsrc Hval.
  - destruct Hsrc as [Hacc|(key & []%not_elem_of_nil & _)]. exact Hacc.
  - cbn [getMetricLabels_loop]. apply IH.
    + destruct (slices_Contains defaultMetricLabels label) eqn:Hl; cbn [negb].
      * destruct Hsrc as [Hacc|(key & [->|Hin]%elem_of_cons & Hk & Hn)];
          [by left|congruence|right; eauto].
      * destruct (decide (getMetricLabelName label = n)) as [Hn|Hn].
        -- left. rewrite Hn, lookup_insert_eq. f_equal.
           apply Hval; [left|done|done].
        -- destruct Hsrc as [Hacc|(key & [->|Hin]%elem_of_cons & Hk & Hn')].
           ++ left. by rewrite lookup_insert_ne.
           ++ done.
           ++ right; eauto.
    + intros key Hin. apply Hval. by right.
Qed.

Lemma getMetricLabels_name metricLabels obj reason :
  getMetricLabels metricLabels obj reason !! "name" = Some (Name obj).
Proof. unfold getMetricLabels. by rewrite getMetricLabels_loop_default. Qed.

Lemma getMetricLabels_namespace metricLabels obj reason :
  getMetricLabels metricLabels obj reason !! "namespace" = Some (Namespace obj).
Proof. unfold getMetricLabels. by rewrite getMetricLabels_loop_default. Qed.

Lemma getMetricLabels_reason metricLabels obj reason :
  getMetricLabels metricLabels obj reason !! "reason" = Some reason.
Proof. unfold getMetricLabels. by rewrite getMetricLabels_loop_default. Qed.

(** Label sets built for different reasons differ. *)
Lemma getMetricLabels_inj metricLabels obj (r1 r2 : string) :
  getMetricLabels metricLabels obj r1 = getMetricLabels metricLabels obj r2 ->
  r1 = r2.
Proof.
  intros Heq.
  pose proof (getMetricLabels_reason metricLabels obj r1) as H1.
  rewrite Heq, getMetricLabels_reason in H1. congruence.
Qed.

Local Open Scope Z_scope.

(** ** The router *)

Section RouterFacts.

Context {V : Type} `{PrometheusGaugeVec V}.

(** With a gauge vector for the kind the loop runs to its end, and leaves
    the vector as the turns made it, one after the other. *)
Lemma Send_loop_Some (labelsByKind : gmap string (list string))
    (ev : EnhancedEvent) (kind : string) (reasons : list string)
    (metrics : gmap string V) (metric : V) :
  metrics !! kind = Some metric ->
  Send_loop labelsByKind ev kind reasons metrics
  = Ok (<[kind := fold_left (Send_step (default [] (labelsByKind !! kind)) ev)
                    reasons metric]> metrics).
Proof.
  revert metrics metric.
  induction reasons as [|reason rest IH]; intros metrics metric Hm;
    cbn [Send_loop fold_left].
  - by rewrite insert_id.
  - rewrite Hm. erewrite IH by apply lookup_insert_eq.
    by rewrite insert_insert_eq.
Qed.

(** Without one, the first turn panics. *)
Lemma Send_loop_None (labelsByKind : gmap string (list string))
    (ev : EnhancedEvent) (kind : string) (reasons : list string)
    (metrics : gmap string V) :
  metrics !! kind = None ->
  Send_loop labelsByKind ev kind reasons metrics
  = match reasons with [] => Ok metrics | _ => Panic end.
Proof. intros Hm. destruct reasons; cbn [Send_loop]; by rewrite ?Hm. Qed.

(** A turn of the loop is the call [Send_call] names. *)
Lemma Send_step_call (metricLabels : list string) (ev : EnhancedEvent)
    (metric : V) (reason : string) :
  Send_step metricLabels ev metric reason
  = apply_call metric (Send_call metricLabels ev reason).
Proof.
  unfold Send_step, Send_call, SetEventCount, DeleteEventCount.
  by destruct (String.eqb (Reason ev) reason).
Qed.

Lemma Send_steps_calls (metricLabels : list string) (ev : EnhancedEvent)
    (reasons : list string) (metric : V) :
  fold_left (Send_step metricLabels ev) reasons metric
  = fold_left apply_call (map (Send_call metricLabels ev) reasons) metric.
Proof.
  revert metric. induction reasons as [|reason rest IH]; intros metric;
    cbn [fold_left map]; [done|].
  by rewrite IH, Send_step_call.
Qed.

Lemma Send_unknown_kind (o : PrometheusSink V) (ev : EnhancedEvent) :
  slices_Contains (kinds o) (Kind (InvolvedObject ev)) = false ->
  Send o ev = Ok (None, o).
Proof. unfold Send. by intros ->. Qed.

Lemma Send_known_kind (o : PrometheusSink V) (ev : EnhancedEvent) (metric : V) :
  let kind := Kind (InvolvedObject ev) in
  slices_Contains (kinds o) kind = true ->
  metricsByKind o !! kind = Some metric ->
  Send o ev
  = Ok (None,
        {| cfg := cfg o; kinds := kinds o;
           metricsByKind :=
             <[kind := fold_left
                         (Send_step (default [] (metricLabelsByKind o !! kind)) ev)
                         (default [] (ReasonFilter (cfg o) !! kind)) metric]>
               (metricsByKind o);
           metricLabelsByKind := metricLabelsByKind o |}).
Proof.
  intros kind Hk Hm. unfold Send. fold kind. rewrite Hk.
  by rewrite (Send_loop_Some _ _ _ _ _ _ Hm).
Qed.

(** A kind that is routed but has no gauge vector: the nil interface is
    called as soon as there is a reason to go through. *)
Lemma Send_nil_interface (o : PrometheusSink V) (ev : EnhancedEvent) :
  let kind := Kind (InvolvedObject ev) in
  slices_Contains (kinds o) kind = true ->
  metricsByKind o !! kind = None ->
  Send o ev
  = match default [] (ReasonFilter (cfg o) !! kind) with
    | [] => Ok (None,
                {| cfg := cfg o; kinds := kinds o;
                   metricsByKind := metricsByKind o;
                   metricLabelsByKind := metricLabelsByKind o |})
    | _ => Panic
    end.
Proof.
  intros kind Hk Hm. unfold Send. fold kind.
  rewrite Hk, Send_loop_None by done.
  by destruct (default [] (ReasonFilter (cfg o) !! kind)).
Qed.

End RouterFacts.

(** The recording mock appends the calls of the turns. *)
Lemma mock_calls (calls : mockGuageVec) (cs : list GaugeCall) :
  fold_left apply_call cs calls = calls ++ cs.
Proof.
  revert calls. induction cs as [|[labels value|labels] cs IH]; intros calls;
    cbn [fold_left].
  - by rewrite app_nil_r.
  - rewrite IH. cbn. by rewrite <- app_assoc.
  - rewrite IH. cbn. by rewrite <- app_assoc.
Qed.

(** The series of the client library's vector after the turns. *)
Lemma GaugeVec_steps (metricLabels : list string) (ev : EnhancedEvent)
    (reasons : list string) (v : GaugeVec) :
  fold_left (Send_step metricLabels ev) reasons v
  = GaugeVec_update v
      (fun series => fold_left (series_step metricLabels ev) reasons series).
Proof.
  revert v. induction reasons as [|reason rest IH]; intros v; cbn [fold_left].
  - by destruct v.
  - rewrite IH. unfold Send_step, SetEventCount, DeleteEventCount.
    destruct (String.eqb (Reason ev) reason) eqn:Hr;
      unfold GaugeVec_update; cbn [With_Set Delete GaugeVec_PrometheusGaugeVec
        snd vec_opts vec_labelNames vec_series GaugeVec_update];
      do 2 f_equal; unfold series_step; by rewrite Hr.
Qed.

(** Which series the turns leave: a label set built for a configured
    reason is present with the count when the reason is the event's and
    absent otherwise; every other series is as before. *)
Lemma series_steps_lookup (metricLabels : list string) (ev : EnhancedEvent)
    (reasons : list string) (series : gmap (gmap string string) Z)
    (labels : gmap string string) :
  fold_left (series_step metricLabels ev) reasons series !! labels
  = if decide (labels ∈ getMetricLabels metricLabels (InvolvedObject ev) <$> reasons)
    then if decide (labels = getMetricLabels metricLabels (InvolvedObject ev) (Reason ev))
         then Some (float64 (Count ev)) else None
    else series !! labels.
Proof.
  revert series. induction reasons as [|reason rest IH]; intros series;
    cbn [fold_left].
  - rewrite fmap_nil, decide_False; [done|]. apply not_elem_of_nil.
  - rewrite IH, fmap_cons.
    set (L := getMetricLabels metricLabels (InvolvedObject ev)).
    destruct (decide (labels ∈ L <$> rest)) as [Hrest|Hrest].
    + by rewrite (decide_True (P := labels ∈ L reason :: _)) by (by right).
    + destruct (decide (labels = L reason)) as [->|Hne].
      * rewrite (decide_True (P := L reason ∈ L reason :: _)) by (by left).
        unfold series_step. fold L.
        destruct (String.eqb_spec (Reason ev) reason) as [->|Hreason].
        -- by rewrite lookup_insert_eq, decide_True.
        -- rewrite lookup_delete_eq, decide_False; [done|].
           intros Heq%getMetricLabels_inj. by apply Hreason.
      * rewrite (decide_False (P := labels ∈ L reason :: _))
          by (by intros [?|?]%elem_of_cons).
        unfold series_step. fold L.
        destruct (String.eqb (Reason ev) reason).
        -- by rewrite lookup_insert_ne.
        -- by rewrite lookup_delete_ne.
Qed.

(** ** The registry *)

Section RegistryFacts.

Variable unicode_lower : string -> string.

(** What the loop over [config.ReasonFilter] has built when it ends. *)
Lemma NewPrometheusSink_loop (config : PrometheusConfig)
    (filter : gmap string (list string)) :
  let '(kinds, metricsByKind, metricLabelsByKind) :=
    map_fold (NewPrometheusSink_step unicode_lower config) ([], ∅, ∅) filter in
  (forall kind, kind ∈ kinds <-> is_Some (filter !! kind))
  /\ (forall kind,
        metricsByKind !! kind = (fun _ => kindGaugeVec unicode_lower config kind) <$> filter !! kind)
  /\ (forall kind,
        metricLabelsByKind !! kind
        = (fun _ => kindLabels config kind) <$> filter !! kind).
Proof.
  apply (map_fold_weak_ind
    (fun (acc : list string * gmap string GaugeVec * gmap string (list string))
         (m : gmap string (list string)) =>
       let '(kinds, metricsByKind, metricLabelsByKind) := acc in
       (forall kind, kind ∈ kinds <-> is_Some (m !! kind))
       /\ (forall kind,
             metricsByKind !! kind = (fun _ => kindGaugeVec unicode_lower config kind) <$> m !! kind)
       /\ (forall kind,
             metricLabelsByKind !! kind
             = (fun _ => kindLabels config kind) <$> m !! kind))).
  - split; [|split]; intros kind; rewrite !lookup_empty; [|done|done].
    split; [by intros ?%not_elem_of_nil|by intros [? [=]]].
  - intros kind reasons m [[ks ms] ls] Hfresh (Hks & Hms & Hls).
    cbn [NewPrometheusSink_step]. split; [|split]; intros kind'.
    + rewrite elem_of_app, list_elem_of_singleton, Hks, lookup_insert.
      case_decide as Hk; [subst; split; eauto|].
      split; [intros [?|?]; congruence|by left].
    + rewrite !lookup_insert. case_decide as Hk; [by subst|apply Hms].
    + rewrite !lookup_insert. case_decide as Hk; [by subst|apply Hls].
Qed.

End RegistryFacts.

Lemma appendLabels_filter (labels filter_ : list string) :
  appendLabels labels filter_
  = labels ++ filter (fun key => key ∉ defaultMetricLabels) filter_.
Proof.
  revert labels. induction filter_ as [|label rest IH]; intros labels;
    cbn [appendLabels].
  - by rewrite filter_nil, app_nil_r.
  - rewrite IH, filter_cons.
    destruct (slices_Contains defaultMetricLabels label) eqn:Hl; cbn [negb].
    + apply slices_Contains_elem_of in Hl. by rewrite decide_False by (by intros ?).
    + apply slices_Contains_not_elem_of in Hl.
      by rewrite decide_True, <- app_assoc by done.
Qed.

Lemma kindLabels_filter (config : PrometheusConfig) (kind : string) :
  kindLabels config kind
  = defaultMetricLabels
    ++ filter (fun key => key ∉ defaultMetricLabels)
         (default [] (LabelFilter config !! kind)).
Proof.
  unfold kindLabels. destruct (LabelFilter config !! kind) as [extras|]; cbn [default].
  - apply appendLabels_filter.
  - by rewrite filter_nil, app_nil_r.
Qed.

Lemma getMetricLabelNames_fmap (labels : list string) :
  getMetricLabelNames labels = getMetricLabelName <$> labels.
Proof.
  unfold getMetricLabelNames.
  enough (forall acc, getMetricLabelNames_loop acc labels
                      = acc ++ (getMetricLabelName <$> labels)) as -> by done.
  induction labels as [|label rest IH]; intros acc; cbn [getMetricLabelNames_loop].
  - by rewrite fmap_nil, app_nil_r.
  - by rewrite IH, fmap_cons, <- app_assoc.
Qed.

Lemma default_once (key : string) (extras : list string) :
  key ∈ defaultMetricLabels ->
  length (filter (fun k => k = key)
            (defaultMetricLabels
             ++ filter (fun k => k ∉ defaultMetricLabels) extras)) = 1%nat.
Proof.
  intros Hkey. rewrite filter_app, length_app.
  assert (Hnone : filter (fun k => k = key)
            (filter (fun k => k ∉ defaultMetricLabels) extras) = []).
  { induction extras as [|x extras IH]; [done|].
    rewrite filter_cons. case_decide as Hx; [|exact IH].
    rewrite filter_cons, decide_False, IH; [done|]. by intros ->. }
  rewrite Hnone.
  unfold defaultMetricLabels in Hkey.
  repeat (apply elem_of_cons in Hkey as [->|Hkey]); try done.
  by apply not_elem_of_nil in Hkey.
Qed.

(** Going through the reasons a second time changes nothing. *)
Lemma series_steps_idem (metricLabels : list string) (ev : EnhancedEvent)
    (reasons : list string) (series : gmap (gmap string string) Z) :
  fold_left (series_step metricLabels ev) reasons
    (fold_left (series_step metricLabels ev) reasons series)
  = fold_left (series_step metricLabels ev) reasons series.
Proof.
  apply map_eq. intros labels. rewrite !series_steps_lookup.
  by repeat case_decide.
Qed.

(** The registry [NewPrometheusSink] returns, field by field. *)
Lemma NewPrometheusSink_unfold (U : string -> string) (config : PrometheusConfig) :
  let config' :=
    if String.eqb (EventsMetricsNamePrefix config) EmptyString
    then {| EventsMetricsNamePrefix := "event_exporter_";
            ReasonFilter := ReasonFilter config;
            LabelFilter := LabelFilter config |}
    else config in
  exists o : PrometheusSink GaugeVec,
    NewPrometheusSink U config = (config', (o, None))
    /\ cfg o = config'
    /\ ReasonFilter config' = ReasonFilter config
    /\ LabelFilter config' = LabelFilter config
    /\ (forall kind, slices_Contains (kinds o) kind = true
                     <-> is_Some (ReasonFilter config !! kind))
    /\ (forall kind, metricsByKind o !! kind
                     = (fun _ => kindGaugeVec U config' kind) <$> ReasonFilter config !! kind)
    /\ (forall kind, metricLabelsByKind o !! kind
                     = (fun _ => kindLabels config kind) <$> ReasonFilter config !! kind).
Proof.
  intros config'. unfold NewPrometheusSink. fold config'.
  assert (Hrf : ReasonFilter config' = ReasonFilter config)
    by (subst config'; by destruct (String.eqb _ _)).
  assert (Hlf : LabelFilter config' = LabelFilter config)
    by (subst config'; by destruct (String.eqb _ _)).
  pose proof (NewPrometheusSink_loop U config' (ReasonFilter config')) as Hloop.
  destruct (map_fold _ _ _) as [[ks ms] ls].
  destruct Hloop as (Hks & Hms & Hls). rewrite Hrf in Hks, Hms, Hls.
  eexists. split; [reflexivity|]. cbn [cfg kinds metricsByKind metricLabelsByKind].
  split; [done|]. split; [done|]. split; [done|]. split; [|split].
  - intros kind. by rewrite slices_Contains_elem_of.
  - exact Hms.
  - intros kind. rewrite Hls. unfold kindLabels. by rewrite Hlf.
Qed.

(** The series of the first event is still there after the second. *)
Lemma stale_lookup :
  match result_bind (Send (testSink testGaugeVec) testEvent)
          (fun r => Send (snd r) relabelledEvent) with
  | Ok (None, o2) =>
    match metricsByKind o2 !! "Pod" with
    | Some v2 => vec_series v2 !! staleLabels
    | None => None
    end
  | _ => None
  end = Some 1.
Proof. vm_compute. reflexivity. Qed.

(** * The claims *)

(** C1, as stated, fails: objects are told apart by name and namespace,
    series also by the values of the extra labels.  The pod "testpod" sends
    "Starting", is relabelled, and sends "Creating": "Starting" is a
    configured reason other than the last event's, and the gauge vector
    still holds a series of "testpod" for it. *)
Lemma Send_relabelled_stale :
  exists (o1 o2 : PrometheusSink GaugeVec) (v2 : GaugeVec),
    Send (testSink testGaugeVec) testEvent = Ok (None, o1)
    /\ Send o1 relabelledEvent = Ok (None, o2)
    /\ metricsByKind o2 !! "Pod" = Some v2
    /\ Name (InvolvedObject relabelledEvent) = "testpod"
    /\ Namespace (InvolvedObject relabelledEvent) = "testnamespace"
    /\ Reason relabelledEvent = "Creating"
    /\ ReasonFilter (cfg o1) !! "Pod" = Some ["Starting"; "Creating"]
    /\ has_series v2 "testpod" "testnamespace" "Starting".
Proof.
  pose proof stale_lookup as Hstale.
  pose proof (Send_known_kind (testSink testGaugeVec) testEvent testGaugeVec
                eq_refl eq_refl) as H1.
  rewrite H1 in Hstale. cbn [result_bind snd] in Hstale.
  match type of H1 with _ = Ok (None, ?o) => set (o1 := o) in * end.
  assert (Hv1 : exists v1, metricsByKind o1 !! "Pod" = Some v1)
    by (eexists; apply lookup_insert_eq).
  destruct Hv1 as [v1 Hv1].
  pose proof (Send_known_kind o1 relabelledEvent v1 eq_refl Hv1) as H2.
  rewrite H2 in Hstale.
  match type of H2 with _ = Ok (None, ?o) => set (o2 := o) in * end.
  assert (Hv2 : exists v2, metricsByKind o2 !! "Pod" = Some v2)
    by (eexists; apply lookup_insert_eq).
  destruct Hv2 as [v2 Hv2]. rewrite Hv2 in Hstale.
  exists o1, o2, v2.
  split; [exact H1|]. split; [exact H2|]. split; [exact Hv2|].
  do 3 (split; [reflexivity|]). split; [reflexivity|].
  exists staleLabels, 1. split; [exact Hstale|]. unfold staleLabels.
  split; [apply getMetricLabels_name|].
  split; [apply getMetricLabels_namespace|apply getMetricLabels_reason].
Qed.

(** C1, amended.  For a routed kind with a gauge vector, after [Send] has
    processed an event of that kind: for every configured reason of the
    kind, the series whose label set is built from the event's object as
    the event carries it (name, namespace and the object's values of the
    kind's extra labels) and that reason is present with the event's count
    when the reason is the event's, and absent otherwise; every series
    with another label set is as it was before. *)
Theorem Send_sweep (o : PrometheusSink GaugeVec) (ev : EnhancedEvent) (v : GaugeVec) :
  let kind := Kind (InvolvedObject ev) in
  let obj := InvolvedObject ev in
  let metricLabels := default [] (metricLabelsByKind o !! kind) in
  let reasons := default [] (ReasonFilter (cfg o) !! kind) in
  slices_Contains (kinds o) kind = true ->
  metricsByKind o !! kind = Some v ->
  exists (o' : PrometheusSink GaugeVec) (v' : GaugeVec),
    Send o ev = Ok (None, o')
    /\ metricsByKind o' !! kind = Some v'
    /\ (forall reason, reason ∈ reasons ->
          vec_series v' !! getMetricLabels metricLabels obj reason
          = if String.eqb (Reason ev) reason
            then Some (float64 (Count ev)) else None)
    /\ (forall labels : gmap string string,
          labels ∉ getMetricLabels metricLabels obj <$> reasons ->
          vec_series v' !! labels = vec_series v !! labels).
Proof.
  intros kind obj metricLabels reasons Hkind Hv.
  eexists _, _. split; [apply (Send_known_kind o ev v Hkind Hv)|].
  cbn [metricsByKind]. split; [apply lookup_insert_eq|].
  fold kind metricLabels reasons. rewrite GaugeVec_steps.
  cbn [GaugeVec_update vec_series]. split.
  - intros reason Hreason. rewrite series_steps_lookup. fold obj.
    rewrite (decide_True (P := _ ∈ _)) by (by apply list_elem_of_fmap_2).
    destruct (String.eqb_spec (Reason ev) reason) as [->|Hne].
    + by rewrite decide_True.
    + rewrite decide_False; [done|].
      by intros ->%getMetricLabels_inj.
  - intros labels Hlabels. rewrite series_steps_lookup. fold obj.
    by rewrite (decide_False (P := _ ∈ _)).
Qed.

Lemma Send_sweep_witness :
  exists (o' : PrometheusSink GaugeVec) (v' : GaugeVec),
    Send (testSink testGaugeVec) testEvent = Ok (None, o')
    /\ metricsByKind o' !! "Pod" = Some v'
    /\ vec_series v'
         !! getMetricLabels (defaultMetricLabels ++ ["test_label"])
              (InvolvedObject testEvent) "Starting" = Some 1
    /\ vec_series v'
         !! getMetricLabels (defaultMetricLabels ++ ["test_label"])
              (InvolvedObject testEvent) "Creating" = None.
Proof.
  destruct (Send_sweep (testSink testGaugeVec) testEvent testGaugeVec)
    as (o' & v' & Hsend & Hv' & Hreasons & _).
  - reflexivity.
  - reflexivity.
  - exists o', v'. split; [exact Hsend|]. split; [exact Hv'|]. split.
    + apply (Hreasons "Starting"). apply slices_Contains_elem_of. reflexivity.
    + apply (Hreasons "Creating"). apply slices_Contains_elem_of. reflexivity.
Defined.

(** C2.  The code at the failing input: [sanitizeLabelName "fooBar"] is
    "foo_{2}ar", not "foo_bar", and has bytes outside [a-z0-9_]; the
    replacement template "${1}_{2}" names group 1 only, so the upper-case
    letter is dropped and the text "{2}" is put in.  The part of the claim
    on other characters holds at "a.b-c". *)
Theorem sanitizeLabelName_camelCase :
  sanitizeLabelName "fooBar" = "foo_{2}ar"
  /\ all_bytes is_lower_digit_underscore (sanitizeLabelName "fooBar") = false
  /\ expand "${1}_{2}" ["oB"; "o"; "B"] = "o_{2}"
  /\ sanitizeLabelName "a.b-c" = "a_b_c".
Proof. split; [|split; [|split]]; vm_compute; reflexivity. Qed.

(** C3.  On the recording mock of the test file: for an event whose kind
    is not among the sink's kinds [Send] returns nil and leaves every
    vector without a new call; for a routed kind it goes through the whole
    configured reason list of the kind in order and adds, for each reason,
    a set of the built label set to [float64(count)] when the reason is the
    event's and a delete of the built label set otherwise, all on the
    vector of that kind. *)
Theorem Send_calls (o : PrometheusSink mockGuageVec) (ev : EnhancedEvent) :
  let kind := Kind (InvolvedObject ev) in
  let obj := InvolvedObject ev in
  let metricLabels := default [] (metricLabelsByKind o !! kind) in
  let reasons := default [] (ReasonFilter (cfg o) !! kind) in
  (slices_Contains (kinds o) kind = false -> Send o ev = Ok (None, o))
  /\ (slices_Contains (kinds o) kind = true ->
      forall calls : mockGuageVec,
        metricsByKind o !! kind = Some calls ->
        Send o ev
        = Ok (None,
              {| cfg := cfg o; kinds := kinds o;
                 metricsByKind :=
                   <[kind :=
                       calls ++
                       ((fun r =>
                           if String.eqb (Reason ev) r
                           then CallSet (getMetricLabels metricLabels obj r)
                                  (float64 (Count ev))
                           else CallDelete (getMetricLabels metricLabels obj r))
                          <$> reasons)]> (metricsByKind o);
                 metricLabelsByKind := metricLabelsByKind o |})).
Proof.
  intros kind obj metricLabels reasons. split.
  - apply Send_unknown_kind.
  - intros Hkind calls Hcalls.
    rewrite (Send_known_kind o ev calls Hkind Hcalls).
    fold kind metricLabels reasons.
    by rewrite Send_steps_calls, mock_calls.
Qed.

Lemma Send_calls_witness :
  exists o' : PrometheusSink mockGuageVec,
    Send (testSink ([] : mockGuageVec)) testEvent = Ok (None, o')
    /\ metricsByKind o' !! "Pod"
       = Some [CallSet (getMetricLabels (defaultMetricLabels ++ ["test_label"])
                          (InvolvedObject testEvent) "Starting") 1;
               CallDelete (getMetricLabels (defaultMetricLabels ++ ["test_label"])
                             (InvolvedObject testEvent) "Creating")].
Proof.
  destruct (Send_calls (testSink ([] : mockGuageVec)) testEvent) as [_ Hknown].
  eexists. split; [apply (Hknown eq_refl [] eq_refl)|].
  apply lookup_insert_eq.
Defined.

(** C4.  The code at the failing input: sanitizing "fooBar" twice gives
    "foo__2_ar", sanitizing it once "foo_{2}ar". *)
Theorem sanitizeLabelName_twice :
  sanitizeLabelName (sanitizeLabelName "fooBar") = "foo__2_ar"
  /\ sanitizeLabelName "fooBar" = "foo_{2}ar"
  /\ sanitizeLabelName (sanitizeLabelName "fooBar") <> sanitizeLabelName "fooBar".
Proof.
  split; [vm_compute; reflexivity|]. split; [vm_compute; reflexivity|].
  vm_compute. discriminate.
Qed.

(** C5.  The mandatory keys are "name", "namespace" and "reason";
    [getMetricLabelName] sends each of them to itself and every other key
    to "label_" followed by the sanitized key; no other key is sent to
    itself. *)
Theorem getMetricLabelName_spec (label : string) :
  defaultMetricLabels = ["name"; "namespace"; "reason"]
  /\ (label ∈ defaultMetricLabels -> getMetricLabelName label = label)
  /\ (label ∉ defaultMetricLabels ->
      getMetricLabelName label = "label_" +:+ sanitizeLabelName label)
  /\ (getMetricLabelName label = label <-> label ∈ defaultMetricLabels).
Proof.
  split; [reflexivity|].
  assert (Hdef : label ∈ defaultMetricLabels -> getMetricLabelName label = label).
  { intros Hl%slices_Contains_elem_of. by apply getMetricLabelName_default. }
  assert (Hoth : label ∉ defaultMetricLabels ->
                 getMetricLabelName label = "label_" +:+ sanitizeLabelName label).
  { intros Hl%slices_Contains_not_elem_of. by apply getMetricLabelName_other. }
  split; [exact Hdef|]. split; [exact Hoth|]. split; [|exact Hdef].
  intros Heq. destruct (decide (label ∈ defaultMetricLabels)) as [|Hnot]; [done|].
  rewrite (Hoth Hnot) in Heq. by apply prefixed_neq in Heq.
Qed.

Lemma getMetricLabelName_spec_witness :
  getMetricLabelName "reason" = "reason"
  /\ getMetricLabelName "test_label" = "label_test_label".
Proof.
  split.
  - destruct (getMetricLabelName_spec "reason") as (_ & Hdef & _).
    apply Hdef, slices_Contains_elem_of. reflexivity.
  - destruct (getMetricLabelName_spec "test_label") as (_ & _ & Hoth & _).
    rewrite Hoth; [reflexivity|].
    apply slices_Contains_not_elem_of. reflexivity.
Defined.

(** C6, as stated, fails: two extra keys may be sent to the same metric
    label key, and the later one wins.  "a.b" and "a-b" both go to
    "label_a_b"; the object has "a.b" = "x" and the label set holds "y". *)
Lemma getMetricLabels_collision :
  "a.b" ∈ ["a.b"; "a-b"]
  /\ ("a.b" ∉ defaultMetricLabels)
  /\ (Labels (podWith {[ "a.b" := "x"; "a-b" := "y" ]})) !! "a.b" = Some "x"
  /\ getMetricLabels ["a.b"; "a-b"] (podWith {[ "a.b" := "x"; "a-b" := "y" ]})
       "Starting" !! getMetricLabelName "a.b"
     = Some "y".
Proof.
  split; [apply slices_Contains_elem_of; reflexivity|].
  split; [apply slices_Contains_not_elem_of; reflexivity|].
  split; vm_compute; reflexivity.
Qed.

(** C6, amended.  The built label set always holds name, namespace and
    reason as given; and for every extra key of the list that is not a
    mandatory key and whose metric label key no other extra key of the
    list shares, it holds under that metric label key the object's value
    of the key, or the empty string when the object has no such label. *)
Theorem getMetricLabels_spec (metricLabels : list string)
    (obj : EnhancedObjectReference) (reason : string) :
  let labels := getMetricLabels metricLabels obj reason in
  labels !! "name" = Some (Name obj)
  /\ labels !! "namespace" = Some (Namespace obj)
  /\ labels !! "reason" = Some reason
  /\ forall key,
       key ∈ metricLabels -> key ∉ defaultMetricLabels ->
       (forall key', key' ∈ metricLabels -> key' ∉ defaultMetricLabels ->
          getMetricLabelName key' = getMetricLabelName key -> key' = key) ->
       labels !! getMetricLabelName key
       = Some (match Labels obj !! key with
               | Some value => value
               | None => EmptyString
               end).
Proof.
  intros labels. subst labels.
  split; [apply getMetricLabels_name|].
  split; [apply getMetricLabels_namespace|].
  split; [apply getMetricLabels_reason|].
  intros key Hin Hkey Hcoll.
  unfold getMetricLabels. apply getMetricLabels_loop_extra.
  - right. exists key. by rewrite slices_Contains_not_elem_of.
  - intros key' Hin' Hkey'%slices_Contains_not_elem_of Hname.
    by rewrite (Hcoll key' Hin' Hkey' Hname).
Qed.

Lemma getMetricLabels_spec_witness :
  getMetricLabels ["name"; "test_label"; "zone"]
    (podWith {[ "test_label" := "v1" ]}) "Starting" !! "label_zone"
  = Some EmptyString.
Proof.
  pose proof (getMetricLabels_spec ["name"; "test_label"; "zone"]
                (podWith {[ "test_label" := "v1" ]}) "Starting")
    as (_ & _ & _ & Hextra).
  apply (Hextra "zone").
  - apply slices_Contains_elem_of. reflexivity.
  - apply slices_Contains_not_elem_of. reflexivity.
  - intros key' Hin Hnot Hname. rewrite !elem_of_cons in Hin.
    destruct Hin as [->|[->|[->|Hin]]].
    + exfalso. apply Hnot, slices_Contains_elem_of. reflexivity.
    + vm_compute in Hname. discriminate Hname.
    + reflexivity.
    + by apply elem_of_nil in Hin.
Defined.

(** C7.  Processing an event twice in a row comes to what processing it
    once comes to, from every sink and every state of its gauge vectors:
    the same result and the same series. *)
Theorem Send_idempotent (o : PrometheusSink GaugeVec) (ev : EnhancedEvent) :
  result_bind (Send o ev) (fun r => Send (snd r) ev) = Send o ev.
Proof.
  set (kind := Kind (InvolvedObject ev)).
  destruct (slices_Contains (kinds o) kind) eqn:Hkind.
  - destruct (metricsByKind o !! kind) as [v|] eqn:Hv.
    + rewrite (Send_known_kind o ev v Hkind Hv). fold kind.
      cbn [result_bind snd].
      erewrite Send_known_kind; cbn [kinds metricsByKind cfg metricLabelsByKind];
        [|exact Hkind|apply lookup_insert_eq].
      fold kind. rewrite insert_insert_eq.
      do 3 f_equal. rewrite !GaugeVec_steps. unfold GaugeVec_update.
      cbn [vec_opts vec_labelNames vec_series].
      by rewrite series_steps_idem.
    + rewrite (Send_nil_interface o ev Hkind Hv). fold kind.
      destruct (default [] (ReasonFilter (cfg o) !! kind)) as [|r rs] eqn:Hrs;
        cbn [result_bind snd]; [|done].
      rewrite Send_nil_interface; cbn [kinds metricsByKind cfg metricLabelsByKind];
        [|exact Hkind|exact Hv].
      fold kind. by rewrite Hrs.
  - rewrite (Send_unknown_kind o ev Hkind). cbn [result_bind snd].
    by apply Send_unknown_kind.
Qed.

Lemma NoDup_defaultMetricLabels : NoDup defaultMetricLabels.
Proof. by apply (bool_decide_unpack _). Qed.

(** C8.  For every configured kind whose extra keys are a set, no key
    listed twice, or at least whose vector has the distinct label names
    that registration asks for: the labels built at construction are the
    three mandatory keys together with the kind's extra keys, a key is
    among them exactly when it is mandatory or an extra, and no key is
    there twice; a mandatory key occurs once also when it is listed among
    the extras.  The list is the mandatory keys followed by the extras
    that are not mandatory, in their order. *)
Theorem NewPrometheusSink_labels (U : string -> string)
    (config : PrometheusConfig) (kind : string) (reasons : list string) :
  let o := fst (snd (NewPrometheusSink U config)) in
  let extras := default [] (LabelFilter config !! kind) in
  ReasonFilter config !! kind = Some reasons ->
  NoDup extras
  \/ (exists v, metricsByKind o !! kind = Some v /\ NoDup (vec_labelNames v)) ->
  exists labels : list string,
    metricLabelsByKind o !! kind = Some labels
    /\ (forall key, key ∈ labels <-> key ∈ defaultMetricLabels \/ key ∈ extras)
    /\ NoDup labels
    /\ (forall key, key ∈ defaultMetricLabels ->
          length (filter (fun k => k = key) labels) = 1%nat)
    /\ labels = defaultMetricLabels
                ++ filter (fun key => key ∉ defaultMetricLabels) extras.
Proof.
  intros o extras Hkind. subst o.
  destruct (NewPrometheusSink_unfold U config)
    as (o & -> & _ & _ & _ & _ & Hms & Hls).
  cbn [fst snd]. intros Hset. exists (kindLabels config kind).
  split; [by rewrite Hls, Hkind|].
  assert (Hnodup : NoDup (kindLabels config kind)).
  { destruct Hset as [Hextras|(v & Hv & Hnames)].
    - rewrite kindLabels_filter. fold extras. apply NoDup_app. split; [|split].
      + exact NoDup_defaultMetricLabels.
      + by intros key Hkey [Hnot _]%list_elem_of_filter.
      + by apply NoDup_filter.
    - rewrite Hms, Hkind in Hv. injection Hv as <-.
      cbn [kindGaugeVec newGaugeVec NewGaugeVec vec_labelNames] in Hnames.
      rewrite getMetricLabelNames_fmap in Hnames.
      apply NoDup_fmap_1 in Hnames.
      by destruct (String.eqb (EventsMetricsNamePrefix config) EmptyString). }
  revert Hnodup. rewrite kindLabels_filter. fold extras. intros Hnodup.
  split; [|split; [exact Hnodup|split; [|done]]].
  - intros key. rewrite elem_of_app, list_elem_of_filter.
    destruct (decide (key ∈ defaultMetricLabels)); tauto.
  - intros key Hkey. by apply default_once.
Qed.

Lemma NewPrometheusSink_labels_witness :
  metricLabelsByKind
    (fst (snd (NewPrometheusSink gostrings.ToLower_ascii mandatoryExtraConfig)))
    !! "Pod"
  = Some ["name"; "namespace"; "reason"; "test_label"]
  /\ NoDup ["name"; "namespace"; "reason"; "test_label"].
Proof.
  destruct (NewPrometheusSink_labels gostrings.ToLower_ascii mandatoryExtraConfig
              "Pod" ["Starting"] eq_refl)
    as (labels & Hlabels & _ & Hnodup & _ & Heq).
  - left. by apply (bool_decide_unpack _).
  - change (defaultMetricLabels ++ _)
      with ["name"; "namespace"; "reason"; "test_label"] in Heq.
    subst labels. by split.
Defined.

(** C10.  [NewPrometheusSink] writes through the pointer it is given: when
    the prefix of the configuration is empty, the configuration holds the
    prefix "event_exporter_" after the call, so it is not the configuration
    it was, and the metric names of the registry carry that prefix; the
    reason filter and the label filter are as before, a configuration with
    a prefix is left as it is, and the sink keeps the caller's
    configuration. *)
Theorem NewPrometheusSink_default_prefix (U : string -> string)
    (config : PrometheusConfig) :
  let config' := fst (NewPrometheusSink U config) in
  let o := fst (snd (NewPrometheusSink U config)) in
  (EventsMetricsNamePrefix config = EmptyString ->
     EventsMetricsNamePrefix config' = "event_exporter_"
     /\ config' <> config
     /\ (forall kind v, metricsByKind o !! kind = Some v ->
           opts_Name (vec_opts v)
           = "event_exporter_" +:+ gostrings.ToLower U kind +:+ "_event_count"))
  /\ (EventsMetricsNamePrefix config <> EmptyString -> config' = config)
  /\ ReasonFilter config' = ReasonFilter config
  /\ LabelFilter config' = LabelFilter config
  /\ cfg o = config'.
Proof.
  intros config' o. subst config' o.
  destruct (NewPrometheusSink_unfold U config)
    as (o & -> & Hcfg & Hrf & Hlf & _ & Hms & _).
  cbn [fst snd]. split; [|split].
  - intros Hempty. rewrite Hempty in *. cbn [String.eqb] in *.
    split; [done|]. split.
    + intros Heq. rewrite <- Heq in Hempty. discriminate Hempty.
    + intros kind v. rewrite Hms.
      destruct (ReasonFilter config !! kind); [|done]. by intros [= <-].
  - intros Hne. by rewrite (proj2 (String.eqb_neq _ _) Hne).
  - done.
Qed.

Lemma NewPrometheusSink_default_prefix_witness :
  EventsMetricsNamePrefix
    (fst (NewPrometheusSink gostrings.ToLower_ascii repeatedExtraConfig))
  = "event_exporter_".
Proof.
  destruct (NewPrometheusSink_default_prefix gostrings.ToLower_ascii
              repeatedExtraConfig) as [Hempty _].
  by destruct (Hempty eq_refl) as [-> _].
Defined.

(** * Further properties *)

(** ** The sanitizer on keys without upper-case letters *)

Lemma lower_digit_underscore_facts (c : ascii) :
  is_lower_digit_underscore c = true ->
  is_name_byte c = true /\ no_upper_byte c = true /\ is_ascii_byte c = true.
Proof. each_byte c; vm_compute; intros; repeat split; congruence. Qed.

Lemma name_no_upper_byte (c : ascii) :
  is_name_byte c = true -> no_upper_byte c = true ->
  is_lower_digit_underscore c = true.
Proof. each_byte c; vm_compute; congruence. Qed.

Lemma no_upper_class (c : ascii) :
  no_upper_byte c = true -> class_upper (N_of_ascii c) = false.
Proof. each_byte c; vm_compute; congruence. Qed.

Lemma no_upper_lower_byte (c : ascii) :
  no_upper_byte c = true -> gostrings.lower_byte c = c.
Proof. each_byte c; vm_compute; congruence. Qed.

Lemma word_or_brace_lower (c : ascii) :
  is_word_or_brace c = true -> is_sanitized_byte (gostrings.lower_byte c) = true.
Proof. each_byte c; vm_compute; congruence. Qed.

Lemma all_bytes_and (p q : ascii -> bool) (s : string) :
  all_bytes (fun c => p c && q c) s = all_bytes p s && all_bytes q s.
Proof.
  induction s as [|c s IH]; cbn [all_bytes]; [done|]. rewrite IH.
  destruct (p c), (q c), (all_bytes p s), (all_bytes q s); done.
Qed.

(** The first replacement copies a string of [[a-zA-Z0-9_]]. *)
Lemma replaceAll_invalidChars_id (fuel : nat) (src : string) :
  (String.length src <= fuel)%nat ->
  all_bytes is_name_byte src = true ->
  replaceAll fuel invalidCharsRegex src "_" = src.
Proof.
  revert src. induction fuel as [|fuel IH]; intros [|c rest] Hlen Hsrc;
    simpl in Hlen; try done; try lia.
  cbn [replaceAll]. unfold match_at.
  cbn [all_bytes] in Hsrc. apply andb_true_iff in Hsrc as [Hc Hrest].
  rewrite (DecodeRuneInString_ascii c rest (is_name_byte_ascii c Hc)).
  unfold class_invalid. unfold is_name_byte in Hc. rewrite Hc. cbn [negb].
  cbn [take_bytes drop_bytes]. rewrite IH by (done || lia). done.
Qed.

(** The first replacement brings in no upper-case letter. *)
Lemma replaceAll_invalidChars_no_upper (fuel : nat) (src : string) :
  (String.length src <= fuel)%nat ->
  all_bytes no_upper_byte src = true ->
  all_bytes no_upper_byte (replaceAll fuel invalidCharsRegex src "_") = true.
Proof.
  revert src. induction fuel as [|fuel IH]; intros [|c rest] Hlen Hsrc;
    simpl in Hlen; try done; try lia.
  cbn [replaceAll]. unfold match_at.
  pose proof (DecodeRuneInString_width c rest) as Hw.
  destruct (utf8.DecodeRuneInString (String c rest)) as [r w] eqn:Hdec.
  simpl in Hw.
  assert (Hdrop : forall n, (1 <= n)%nat ->
            all_bytes no_upper_byte (drop_bytes n (String c rest)) = true
            /\ (String.length (drop_bytes n (String c rest)) <= fuel)%nat).
  { intros n Hn. split.
    - clear -Hsrc. revert n. generalize (String c rest) Hsrc. clear.
      induction s as [|c s IHs]; intros Hs [|n]; cbn [drop_bytes]; try done.
      cbn [all_bytes] in Hs. apply andb_true_iff in Hs as [_ Hs]. by apply IHs.
    - rewrite length_drop_bytes. simpl. lia. }
  destruct (class_invalid r) eqn:Hclass.
  - change (expand "_" _) with "_". rewrite all_bytes_app.
    destruct (Hdrop w Hw) as [Hd Hl]. by rewrite IH.
  - apply negb_false_iff in Hclass.
    destruct (DecodeRuneInString_word _ _ _ _ Hdec Hclass) as [-> ->].
    cbn [take_bytes drop_bytes]. rewrite all_bytes_app. cbn [all_bytes] in *.
    apply andb_true_iff in Hsrc as [Hc Hrest]. rewrite Hc.
    cbn [andb]. apply IH; [lia|done].
Qed.

(** The second replacement copies an ASCII string without upper-case
    letters. *)
Lemma replaceAll_camelCase_id (fuel : nat) (src repl : string) :
  (String.length src <= fuel)%nat ->
  all_bytes is_ascii_byte src = true ->
  all_bytes no_upper_byte src = true ->
  replaceAll fuel camelCaseRegex src repl = src.
Proof.
  revert src. induction fuel as [|fuel IH]; intros [|c rest] Hlen Hascii Hup;
    simpl in Hlen; try done; try lia.
  cbn [replaceAll]. unfold match_at.
  cbn [all_bytes] in Hascii, Hup.
  apply andb_true_iff in Hascii as [Hc Hrest].
  apply andb_true_iff in Hup as [Hcu Hrestu].
  rewrite (DecodeRuneInString_ascii c rest Hc). cbn [drop_bytes take_bytes].
  assert (Hcopy : String c EmptyString +:+ replaceAll fuel camelCaseRegex rest repl
                  = String c rest).
  { rewrite IH by (done || lia). done. }
  destruct (class_lower_digit (N_of_ascii c)); [|exact Hcopy].
  destruct rest as [|c2 rest2]; [exact Hcopy|].
  cbn [all_bytes] in Hrest, Hrestu.
  apply andb_true_iff in Hrest as [Hc2 Hrest2].
  apply andb_true_iff in Hrestu as [Hc2u Hrest2u].
  rewrite (DecodeRuneInString_ascii c2 rest2 Hc2), (no_upper_class c2 Hc2u).
  exact Hcopy.
Qed.

Lemma ToLower_ascii_id (s : string) :
  all_bytes no_upper_byte s = true -> gostrings.ToLower_ascii s = s.
Proof.
  induction s as [|c s IH]; cbn [all_bytes gostrings.ToLower_ascii]; [done|].
  intros [Hc Hs]%andb_true_iff. by rewrite no_upper_lower_byte, IH.
Qed.

(** The second replacement keeps a string of [[a-zA-Z0-9_]] within those
    bytes and the braces of its template. *)
Lemma replaceAll_camelCase_bytes (fuel : nat) (src : string) :
  (String.length src <= fuel)%nat ->
  all_bytes is_name_byte src = true ->
  all_bytes is_word_or_brace (replaceAll fuel camelCaseRegex src "${1}_{2}") = true.
Proof.
  assert (Hwb : forall c, is_name_byte c = true -> is_word_or_brace c = true).
  { intros c Hc. unfold is_word_or_brace. by rewrite Hc. }
  revert src. induction fuel as [|fuel IH]; intros [|c rest] Hlen Hsrc;
    simpl in Hlen; try done; try lia.
  cbn [replaceAll]. unfold match_at.
  cbn [all_bytes] in Hsrc. apply andb_true_iff in Hsrc as [Hc Hrest].
  rewrite (DecodeRuneInString_ascii c rest (is_name_byte_ascii c Hc)).
  cbn [drop_bytes take_bytes].
  assert (Hcopy : all_bytes is_word_or_brace
            (String c EmptyString +:+
               replaceAll fuel camelCaseRegex rest "${1}_{2}") = true).
  { rewrite all_bytes_app. cbn [all_bytes]. rewrite (Hwb c Hc).
    apply IH; [lia|done]. }
  destruct (class_lower_digit (N_of_ascii c)); [|exact Hcopy].
  destruct rest as [|c2 rest2]; [exact Hcopy|].
  cbn [all_bytes] in Hrest. apply andb_true_iff in Hrest as [Hc2 Hrest2].
  rewrite (DecodeRuneInString_ascii c2 rest2 (is_name_byte_ascii c2 Hc2)).
  destruct (class_upper (N_of_ascii c2)); [|exact Hcopy].
  cbn [drop_bytes take_bytes Nat.add].
  change (gostrings.Contains_dollar "${1}_{2}") with true. cbv iota.
  change (expand "${1}_{2}" ?g) with (String c "_{2}").
  rewrite all_bytes_app. cbn [all_bytes]. rewrite (Hwb c Hc).
  apply IH; [simpl in Hlen; lia|done].
Qed.

Lemma ToLower_ascii_bytes (s : string) :
  all_bytes is_word_or_brace s = true ->
  all_bytes is_sanitized_byte (gostrings.ToLower_ascii s) = true.
Proof.
  induction s as [|c s IH]; cbn [all_bytes gostrings.ToLower_ascii]; [done|].
  intros [Hc Hs]%andb_true_iff. by rewrite word_or_brace_lower, IH.
Qed.

(** The first replacement of a string that is not empty is not empty. *)
Lemma replaceAll_invalidChars_nonempty (c : ascii) (rest : string) :
  (1 <= String.length (ReplaceAllString invalidCharsRegex (String c rest) "_"))%nat.
Proof.
  unfold ReplaceAllString. cbn [String.length replaceAll]. unfold match_at.
  pose proof (DecodeRuneInString_width c rest) as Hw.
  destruct (utf8.DecodeRuneInString (String c rest)) as [r w]. simpl in Hw.
  destruct (class_invalid r).
  - change (expand "_" _) with "_". rewrite length_app_string.
    cbn [String.length]. lia.
  - rewrite length_app_string. destruct w as [|w]; [lia|].
    cbn [take_bytes String.length]. lia.
Qed.

Lemma sanitizeLabelName_id (label : string) :
  all_bytes is_lower_digit_underscore label = true ->
  sanitizeLabelName label = label.
Proof.
  intros Hlabel.
  assert (Hname : all_bytes is_name_byte label = true)
    by (eapply all_bytes_impl; [apply lower_digit_underscore_facts|done]).
  assert (Hup : all_bytes no_upper_byte label = true)
    by (eapply all_bytes_impl; [apply lower_digit_underscore_facts|done]).
  assert (Hascii : all_bytes is_ascii_byte label = true)
    by (eapply all_bytes_impl; [apply lower_digit_underscore_facts|done]).
  unfold sanitizeLabelName, ReplaceAllString.
  rewrite replaceAll_invalidChars_id by done.
  rewrite replaceAll_camelCase_id by done.
  by apply ToLower_ascii_id.
Qed.

(** X1.  A key of [[a-z0-9_]] only is sanitized to itself. *)
Theorem sanitizeLabelName_fixed (label : string) :
  all_bytes is_lower_digit_underscore label = true ->
  sanitizeLabelName label = label.
Proof. apply sanitizeLabelName_id. Qed.

Lemma sanitizeLabelName_fixed_witness :
  sanitizeLabelName "app_kubernetes_io_name" = "app_kubernetes_io_name".
Proof. apply sanitizeLabelName_fixed. reflexivity. Defined.

(** X2.  A key without an upper-case ASCII letter is sanitized to a string
    of [[a-z0-9_]] only, and sanitizing that again changes nothing. *)
Theorem sanitizeLabelName_no_upper (label : string) :
  all_bytes no_upper_byte label = true ->
  all_bytes is_lower_digit_underscore (sanitizeLabelName label) = true
  /\ sanitizeLabelName (sanitizeLabelName label) = sanitizeLabelName label.
Proof.
  intros Hup.
  assert (Hgoal : all_bytes is_lower_digit_underscore (sanitizeLabelName label) = true).
  { unfold sanitizeLabelName.
    set (first := ReplaceAllString invalidCharsRegex label "_").
    assert (Hname : all_bytes is_name_byte first = true)
      by (by apply replaceAll_invalidChars_word).
    assert (Hfirst_up : all_bytes no_upper_byte first = true)
      by (by apply replaceAll_invalidChars_no_upper).
    unfold ReplaceAllString at 1.
    rewrite replaceAll_camelCase_id; [|done| |done].
    2:{ eapply all_bytes_impl; [apply is_name_byte_ascii|done]. }
    rewrite ToLower_ascii_id by done.
    apply (all_bytes_impl (fun c => is_name_byte c && no_upper_byte c)).
    - intros c [? ?]%andb_true_iff. by apply name_no_upper_byte.
    - by rewrite all_bytes_and, Hname, Hfirst_up. }
  split; [exact Hgoal|]. by apply sanitizeLabelName_id.
Qed.

Lemma sanitizeLabelName_no_upper_witness :
  sanitizeLabelName (sanitizeLabelName "app.kubernetes.io/name")
  = sanitizeLabelName "app.kubernetes.io/name".
Proof. apply sanitizeLabelName_no_upper. reflexivity. Defined.

(** X3.  Whatever the key, the sanitized key is made of bytes of
    [[a-z0-9_]] and of the braces of the template: it has no upper-case
    letter, no byte above 0x7F and none of the other characters. *)
Theorem sanitizeLabelName_bytes (label : string) :
  all_bytes is_sanitized_byte (sanitizeLabelName label) = true.
Proof.
  unfold sanitizeLabelName. apply ToLower_ascii_bytes.
  apply replaceAll_camelCase_bytes; [done|].
  by apply replaceAll_invalidChars_word.
Qed.

(** X4.  The sanitized key is empty exactly when the key is. *)
Theorem sanitizeLabelName_empty (label : string) :
  sanitizeLabelName label = EmptyString <-> label = EmptyString.
Proof.
  split; [|by intros ->].
  destruct label as [|c rest]; [done|]. intros Hempty. exfalso.
  apply (f_equal String.length) in Hempty. revert Hempty.
  unfold sanitizeLabelName. rewrite length_ToLower_ascii. cbn [String.length].
  pose proof (replaceAll_invalidChars_nonempty c rest) as Hfirst.
  pose proof (replaceAll_camelCase_length
                (String.length (ReplaceAllString invalidCharsRegex (String c rest) "_"))
                (ReplaceAllString invalidCharsRegex (String c rest) "_")
                ltac:(done)) as Hsecond.
  unfold ReplaceAllString at 1. intros Hempty. rewrite Hempty in Hsecond.
  assert (Hascii : all_bytes is_ascii_byte
            (ReplaceAllString invalidCharsRegex (String c rest) "_") = true).
  { eapply all_bytes_impl; [apply is_name_byte_ascii|].
    by apply replaceAll_invalidChars_word. }
  specialize (Hsecond Hascii). cbn [String.length] in Hsecond. lia.
Qed.

(** ** Label keys and label sets *)

(** X5.  A key that is not mandatory is never sent to a mandatory key:
    the metric label key is mandatory exactly when the key is. *)
Theorem getMetricLabelName_mandatory (label : string) :
  getMetricLabelName label ∈ defaultMetricLabels <-> label ∈ defaultMetricLabels.
Proof.
  split.
  - intros Hname.
    destruct (slices_Contains defaultMetricLabels label) eqn:Hl.
    + by apply slices_Contains_elem_of.
    + apply slices_Contains_elem_of in Hname.
      by destruct (prefixed_not_default label _ Hl Hname).
  - intros Hl. apply slices_Contains_elem_of in Hl as Hl'.
    by rewrite getMetricLabelName_default.
Qed.

(** X6.  [getMetricLabelNames] gives as many names as it is given labels,
    and its name at each position is the metric label key of the label at
    that position. *)
Theorem getMetricLabelNames_lookup (labels : list string) :
  length (getMetricLabelNames labels) = length labels
  /\ forall i : nat,
       getMetricLabelNames labels !! i = getMetricLabelName <$> labels !! i.
Proof.
  rewrite getMetricLabelNames_fmap. split; [apply length_fmap|].
  intros i. apply list_lookup_fmap.
Qed.

Lemma extraKeys_cons (label : string) (rest : list string) :
  extraKeys (label :: rest)
  = if slices_Contains defaultMetricLabels label
    then extraKeys rest else label :: extraKeys rest.
Proof.
  unfold extraKeys. rewrite filter_cons.
  destruct (slices_Contains defaultMetricLabels label) eqn:Hl.
  - apply slices_Contains_elem_of in Hl. by rewrite decide_False by (by intros ?).
  - apply slices_Contains_not_elem_of in Hl. by rewrite decide_True.
Qed.

Lemma getMetricLabels_loop_dom (obj : EnhancedObjectReference)
    (metricLabels : list string) (acc : gmap string string) :
  dom (getMetricLabels_loop obj acc metricLabels)
  = dom acc ∪ list_to_set (getMetricLabelName <$> extraKeys metricLabels).
Proof.
  revert acc. induction metricLabels as [|label rest IH]; intros acc;
    cbn [getMetricLabels_loop].
  - unfold extraKeys. rewrite filter_nil, fmap_nil. cbn [list_to_set].
    by rewrite (right_id_L ∅ (∪)).
  - rewrite IH, extraKeys_cons.
    destruct (slices_Contains defaultMetricLabels label); cbn [negb]; [done|].
    rewrite dom_insert_L, fmap_cons. cbn [list_to_set].
    apply set_eq. intros x. rewrite !elem_of_union. tauto.
Qed.

(** X7.  The keys of the built label set are name, namespace, reason and
    the metric label keys of the listed keys that are not mandatory; no
    other key is in it, whatever labels the object has. *)
Theorem getMetricLabels_dom (metricLabels : list string)
    (obj : EnhancedObjectReference) (reason : string) :
  dom (getMetricLabels metricLabels obj reason)
  = ({[ "name"; "namespace"; "reason" ]} : gset string)
    ∪ list_to_set (getMetricLabelName <$> extraKeys metricLabels).
Proof.
  unfold getMetricLabels. rewrite getMetricLabels_loop_dom.
  rewrite !dom_insert_L, dom_empty_L.
  apply set_eq. intros x. rewrite !elem_of_union, elem_of_empty. tauto.
Qed.

Lemma getMetricLabels_loop_ext (obj1 obj2 : EnhancedObjectReference)
    (metricLabels : list string) (acc : gmap string string) :
  (forall key, key ∈ metricLabels -> key ∉ defaultMetricLabels ->
     labelValue obj1 key = labelValue obj2 key) ->
  getMetricLabels_loop obj1 acc metricLabels
  = getMetricLabels_loop obj2 acc metricLabels.
Proof.
  revert acc. induction metricLabels as [|label rest IH]; intros acc Hval;
    cbn [getMetricLabels_loop]; [done|].
  destruct (slices_Contains defaultMetricLabels label) eqn:Hl; cbn [negb].
  - apply IH. intros key Hin. apply Hval. by right.
  - apply slices_Contains_not_elem_of in Hl.
    fold (labelValue obj1 label) (labelValue obj2 label).
    rewrite (Hval label) by (done || by left).
    apply IH. intros key Hin. apply Hval. by right.
Qed.

(** X8.  The built label set depends on the object only through its
    name, its namespace and its values of the listed keys that are not
    mandatory: two objects that agree on these get the same label set,
    whatever their kinds and their other labels. *)
Theorem getMetricLabels_ext (metricLabels : list string)
    (obj1 obj2 : EnhancedObjectReference) (reason : string) :
  Name obj1 = Name obj2 ->
  Namespace obj1 = Namespace obj2 ->
  (forall key, key ∈ metricLabels -> key ∉ defaultMetricLabels ->
     default EmptyString (Labels obj1 !! key)
     = default EmptyString (Labels obj2 !! key)) ->
  getMetricLabels metricLabels obj1 reason
  = getMetricLabels metricLabels obj2 reason.
Proof.
  intros Hname Hns Hval. unfold getMetricLabels. rewrite Hname, Hns.
  by apply getMetricLabels_loop_ext.
Qed.

Lemma getMetricLabels_ext_witness :
  getMetricLabels ["name"; "test_label"]
    {| Kind := "Pod"; Name := "p1"; Namespace := "ns";
       Labels := {[ "test_label" := "v1"; "name" := "other"; "zone" := "a" ]} |}
    "Starting"
  = getMetricLabels ["name"; "test_label"]
      {| Kind := "Job"; Name := "p1"; Namespace := "ns";
         Labels := {[ "test_label" := "v1" ]} |}
      "Starting".
Proof.
  apply getMetricLabels_ext; [reflexivity|reflexivity|].
  intros key Hin Hnot. rewrite !elem_of_cons in Hin.
  destruct Hin as [->|[->|Hin]].
  - exfalso. apply Hnot, slices_Contains_elem_of. reflexivity.
  - reflexivity.
  - by apply elem_of_nil in Hin.
Defined.

Lemma getMetricLabels_loop_extraKeys (obj : EnhancedObjectReference)
    (metricLabels : list string) (acc : gmap string string) :
  getMetricLabels_loop obj acc metricLabels
  = getMetricLabels_loop obj acc (extraKeys metricLabels).
Proof.
  revert acc. induction metricLabels as [|label rest IH]; intros acc;
    cbn [getMetricLabels_loop]; [done|].
  rewrite extraKeys_cons.
  destruct (slices_Contains defaultMetricLabels label) eqn:Hl; cbn [negb].
  - apply IH.
  - cbn [getMetricLabels_loop]. rewrite Hl. cbn [negb]. apply IH.
Qed.

(** X9.  Mandatory keys in the label list change nothing: the label set
    is the one built from the list without them, so a label of the object
    called name, namespace or reason never enters the label set. *)
Theorem getMetricLabels_extraKeys (metricLabels : list string)
    (obj : EnhancedObjectReference) (reason : string) :
  getMetricLabels metricLabels obj reason
  = getMetricLabels (extraKeys metricLabels) obj reason.
Proof. unfold getMetricLabels. apply getMetricLabels_loop_extraKeys. Qed.

Lemma getMetricLabels_loop_app (obj : EnhancedObjectReference)
    (l1 l2 : list string) (acc : gmap string string) :
  getMetricLabels_loop obj acc (l1 ++ l2)
  = getMetricLabels_loop obj (getMetricLabels_loop obj acc l1) l2.
Proof.
  revert acc. induction l1 as [|label rest IH]; intros acc; [done|].
  cbn [app getMetricLabels_loop]. apply IH.
Qed.

(** X10.  When several listed keys are sent to one metric label key, the
    last of them gives the value: a key that is not mandatory and after
    which the list has no key with the same metric label key has its
    value, or the empty string, under that metric label key. *)
Theorem getMetricLabels_last_wins (before after : list string) (key : string)
    (obj : EnhancedObjectReference) (reason : string) :
  key ∉ defaultMetricLabels ->
  (forall key', key' ∈ after -> key' ∉ defaultMetricLabels ->
     getMetricLabelName key' <> getMetricLabelName key) ->
  getMetricLabels (before ++ key :: after) obj reason !! getMetricLabelName key
  = Some (default EmptyString (Labels obj !! key)).
Proof.
  intros Hkey Hafter. unfold getMetricLabels.
  rewrite getMetricLabels_loop_app. cbn [getMetricLabels_loop].
  apply slices_Contains_not_elem_of in Hkey as Hkey'. rewrite Hkey'. cbn [negb].
  apply getMetricLabels_loop_extra.
  - left. apply lookup_insert_eq.
  - intros key' Hin Hk'%slices_Contains_not_elem_of Hname.
    by destruct (Hafter key' Hin Hk').
Qed.

Lemma getMetricLabels_last_wins_witness :
  getMetricLabels (["a.b"] ++ "a-b" :: ["zone"])
    (podWith {[ "a.b" := "x"; "a-b" := "y" ]}) "Starting"
    !! getMetricLabelName "a-b"
  = Some "y".
Proof.
  rewrite (getMetricLabels_last_wins ["a.b"] ["zone"] "a-b"
             (podWith {[ "a.b" := "x"; "a-b" := "y" ]}) "Starting").
  - reflexivity.
  - apply slices_Contains_not_elem_of. reflexivity.
  - intros key' Hin _ Hname. apply list_elem_of_singleton in Hin as ->.
    vm_compute in Hname. discriminate Hname.
Defined.

(** ** The router *)

(** What [Send] comes to, by the three cases of its kind. *)
Lemma Send_cases {V : Type} `{PrometheusGaugeVec V}
    (o : PrometheusSink V) (ev : EnhancedEvent) :
  let kind := Kind (InvolvedObject ev) in
  (slices_Contains (kinds o) kind = false /\ Send o ev = Ok (None, o))
  \/ (slices_Contains (kinds o) kind = true
      /\ metricsByKind o !! kind = None
      /\ Send o ev
         = match eventReasons o ev with
           | [] => Ok (None,
                       {| cfg := cfg o; kinds := kinds o;
                          metricsByKind := metricsByKind o;
                          metricLabelsByKind := metricLabelsByKind o |})
           | _ => Panic
           end)
  \/ (exists metric,
        slices_Contains (kinds o) kind = true
        /\ metricsByKind o !! kind = Some metric
        /\ Send o ev
           = Ok (None,
                 {| cfg := cfg o; kinds := kinds o;
                    metricsByKind :=
                      <[kind := fold_left
                                  (Send_step (default [] (metricLabelsByKind o !! kind)) ev)
                                  (eventReasons o ev) metric]> (metricsByKind o);
                    metricLabelsByKind := metricLabelsByKind o |})).
Proof.
  intros kind.
  destruct (slices_Contains (kinds o) kind) eqn:Hkind.
  - destruct (metricsByKind o !! kind) as [metric|] eqn:Hm.
    + right; right. exists metric. split; [done|]. split; [done|].
      by apply Send_known_kind.
    + right; left. split; [done|]. split; [done|].
      by apply Send_nil_interface.
  - left. split; [done|]. by apply Send_unknown_kind.
Qed.

(** X11.  Whatever implements the gauge vectors: when [Send] returns, the
    error is nil, the configuration, the kinds and the labels of the kinds
    are as before, and so is the gauge vector of every kind other than
    the event's. *)
Theorem Send_frame {V : Type} `{PrometheusGaugeVec V}
    (o o' : PrometheusSink V) (ev : EnhancedEvent) (e : error) :
  Send o ev = Ok (e, o') ->
  e = None
  /\ cfg o' = cfg o
  /\ kinds o' = kinds o
  /\ metricLabelsByKind o' = metricLabelsByKind o
  /\ forall kind, kind <> Kind (InvolvedObject ev) ->
       metricsByKind o' !! kind = metricsByKind o !! kind.
Proof.
  intros Hsend.
  destruct (Send_cases o ev) as [[_ Hs]|[(_ & _ & Hs)|(metric & _ & _ & Hs)]];
    rewrite Hs in Hsend.
  - by injection Hsend as <- <-.
  - destruct (eventReasons o ev); [|discriminate]. by injection Hsend as <- <-.
  - injection Hsend as <- <-. do 4 (split; [done|]).
    intros kind Hne. cbn [metricsByKind]. by rewrite lookup_insert_ne.
Qed.

Lemma Send_frame_witness :
  exists o' : PrometheusSink GaugeVec,
    Send (testSink testGaugeVec) testEvent = Ok (None, o')
    /\ cfg o' = testConfig /\ kinds o' = ["Pod"].
Proof.
  eexists. split; [apply (Send_known_kind (testSink testGaugeVec) testEvent
                            testGaugeVec eq_refl eq_refl)|].
  match goal with
  | |- cfg ?o' = _ /\ _ =>
    destruct (Send_frame (testSink testGaugeVec) o' testEvent None
                (Send_known_kind (testSink testGaugeVec) testEvent
                   testGaugeVec eq_refl eq_refl))
      as (_ & Hcfg & Hkinds & _)
  end.
  split; [exact Hcfg|exact Hkinds].
Defined.

(** X12.  Whatever implements the gauge vectors, [Send] panics when the
    kind of the event is among the sink's kinds, the sink has no gauge
    vector for it, and the kind has a reason configured: the first turn of
    the loop calls a method of the nil interface. *)
Theorem Send_nil_vector_panics {V : Type} `{PrometheusGaugeVec V}
    (o : PrometheusSink V) (ev : EnhancedEvent) :
  let kind := Kind (InvolvedObject ev) in
  slices_Contains (kinds o) kind = true ->
  metricsByKind o !! kind = None ->
  default [] (ReasonFilter (cfg o) !! kind) <> [] ->
  Send o ev = Panic.
Proof.
  intros kind Hkind Hnone Hreasons.
  rewrite (Send_nil_interface o ev Hkind Hnone). fold kind.
  by destruct (default [] (ReasonFilter (cfg o) !! kind)).
Qed.

Lemma Send_nil_vector_panics_witness :
  Send {| cfg := testConfig; kinds := ["Pod"];
          metricsByKind := (∅ : gmap string GaugeVec);
          metricLabelsByKind := ∅ |} testEvent = Panic.
Proof.
  apply Send_nil_vector_panics; [reflexivity|reflexivity|discriminate].
Defined.

(** X13.  Whatever implements the gauge vectors: for a routed kind with a
    vector, [Send] leaves that vector as the calls the mock records make
    it, one after the other in the order of the configured reasons. *)
Theorem Send_replay {V : Type} `{PrometheusGaugeVec V}
    (o : PrometheusSink V) (ev : EnhancedEvent) (metric : V) :
  let kind := Kind (InvolvedObject ev) in
  let metricLabels := default [] (metricLabelsByKind o !! kind) in
  let reasons := default [] (ReasonFilter (cfg o) !! kind) in
  slices_Contains (kinds o) kind = true ->
  metricsByKind o !! kind = Some metric ->
  Send o ev
  = Ok (None,
        {| cfg := cfg o; kinds := kinds o;
           metricsByKind :=
             <[kind := fold_left apply_call
                         (Send_call metricLabels ev <$> reasons) metric]>
               (metricsByKind o);
           metricLabelsByKind := metricLabelsByKind o |}).
Proof.
  intros kind metricLabels reasons Hkind Hm.
  rewrite (Send_known_kind o ev metric Hkind Hm). fold kind metricLabels reasons.
  by rewrite Send_steps_calls.
Qed.

Lemma Send_replay_witness :
  exists o' : PrometheusSink GaugeVec,
    Send (testSink testGaugeVec) testEvent = Ok (None, o')
    /\ metricsByKind o' !! "Pod"
       = Some (snd (Delete (getMetricLabels (defaultMetricLabels ++ ["test_label"])
                              (InvolvedObject testEvent) "Creating")
                      (With_Set (getMetricLabels (defaultMetricLabels ++ ["test_label"])
                                   (InvolvedObject testEvent) "Starting")
                         1 testGaugeVec))).
Proof.
  eexists. split.
  - apply (Send_replay (testSink testGaugeVec) testEvent testGaugeVec
             eq_refl eq_refl).
  - apply lookup_insert_eq.
Defined.

(** The series of the event's kind after [Send] has returned. *)
Lemma Send_series_lookup (o o' : PrometheusSink GaugeVec) (ev : EnhancedEvent)
    (e : error) (v v' : GaugeVec) :
  let kind := Kind (InvolvedObject ev) in
  Send o ev = Ok (e, o') ->
  metricsByKind o !! kind = Some v ->
  metricsByKind o' !! kind = Some v' ->
  forall labels : gmap string string,
    vec_series v' !! labels
    = if slices_Contains (kinds o) kind
      then if decide (labels ∈ eventLabels o ev <$> eventReasons o ev)
           then if decide (labels = eventLabels o ev (Reason ev))
                then Some (float64 (Count ev)) else None
           else vec_series v !! labels
      else vec_series v !! labels.
Proof.
  intros kind Hsend Hv Hv' labels.
  destruct (Send_cases o ev) as [[Hk Hs]|[(Hk & Hm & Hs)|(metric & Hk & Hm & Hs)]];
    fold kind in Hk; rewrite Hk; rewrite Hs in Hsend.
  - injection Hsend as <- <-. congruence.
  - fold kind in Hm. congruence.
  - fold kind in Hm, Hsend. injection Hsend as <- <-.
    cbn [metricsByKind] in Hv'. rewrite lookup_insert_eq in Hv'.
    injection Hv' as <-. assert (metric = v) as -> by congruence.
    rewrite GaugeVec_steps. cbn [GaugeVec_update vec_series].
    apply series_steps_lookup.
Qed.

Lemma eventLabels_name {V : Type} (o : PrometheusSink V) (ev : EnhancedEvent)
    (reason : string) :
  eventLabels o ev reason !! "name" = Some (Name (InvolvedObject ev))
  /\ eventLabels o ev reason !! "namespace" = Some (Namespace (InvolvedObject ev))
  /\ eventLabels o ev reason !! "reason" = Some reason.
Proof.
  unfold eventLabels.
  by rewrite getMetricLabels_name, getMetricLabels_namespace, getMetricLabels_reason.
Qed.

(** The test sink takes the test event. *)
Lemma testSink_Send :
  exists (o' : PrometheusSink GaugeVec) (v' : GaugeVec),
    Send (testSink testGaugeVec) testEvent = Ok (None, o')
    /\ metricsByKind o' !! "Pod" = Some v'.
Proof.
  eexists _, _. split.
  - apply (Send_known_kind (testSink testGaugeVec) testEvent testGaugeVec
             eq_refl eq_refl).
  - apply lookup_insert_eq.
Qed.

(** X14.  An event leaves the series of other objects alone: a series
    whose name or namespace label is not the event's object's is in the
    vector of the event's kind after [Send] exactly as before. *)
Theorem Send_other_objects (o o' : PrometheusSink GaugeVec) (ev : EnhancedEvent)
    (e : error) (v v' : GaugeVec) (labels : gmap string string) :
  let kind := Kind (InvolvedObject ev) in
  Send o ev = Ok (e, o') ->
  metricsByKind o !! kind = Some v ->
  metricsByKind o' !! kind = Some v' ->
  labels !! "name" <> Some (Name (InvolvedObject ev))
  \/ labels !! "namespace" <> Some (Namespace (InvolvedObject ev)) ->
  vec_series v' !! labels = vec_series v !! labels.
Proof.
  intros kind Hsend Hv Hv' Hother.
  rewrite (Send_series_lookup o o' ev e v v' Hsend Hv Hv').
  destruct (slices_Contains (kinds o) (Kind (InvolvedObject ev))); [|done].
  rewrite decide_False; [done|].
  intros (reason & -> & _)%list_elem_of_fmap.
  destruct (eventLabels_name o ev reason) as (Hn & Hns & _).
  destruct Hother as [Hother|Hother]; by apply Hother.
Qed.

Lemma Send_other_objects_witness :
  exists (o' : PrometheusSink GaugeVec) (v' : GaugeVec),
    Send (testSink testGaugeVec) testEvent = Ok (None, o')
    /\ metricsByKind o' !! "Pod" = Some v'
    /\ vec_series v'
         !! getMetricLabels (defaultMetricLabels ++ ["test_label"])
              (podWith ∅) "Starting"
       = None.
Proof.
  destruct testSink_Send as (o' & v' & Hsend & Hv').
  exists o', v'. split; [exact Hsend|]. split; [exact Hv'|].
  rewrite (Send_other_objects (testSink testGaugeVec) o' testEvent None
             testGaugeVec v' _ Hsend eq_refl Hv').
  - reflexivity.
  - left. rewrite getMetricLabels_name. discriminate.
Defined.

(** X15.  An event adds at most one series to the vector of its kind, the
    one of the event's own reason: every series there after [Send] was
    there before or has the label set built for the event's reason, and
    the vector has at most one series more than before. *)
Theorem Send_one_more (o o' : PrometheusSink GaugeVec) (ev : EnhancedEvent)
    (e : error) (v v' : GaugeVec) :
  let kind := Kind (InvolvedObject ev) in
  let metricLabels := default [] (metricLabelsByKind o !! kind) in
  Send o ev = Ok (e, o') ->
  metricsByKind o !! kind = Some v ->
  metricsByKind o' !! kind = Some v' ->
  (forall labels : gmap string string,
     is_Some (vec_series v' !! labels) ->
     is_Some (vec_series v !! labels)
     \/ labels = getMetricLabels metricLabels (InvolvedObject ev) (Reason ev))
  /\ (size (vec_series v') <= S (size (vec_series v)))%nat.
Proof.
  intros kind metricLabels Hsend Hv Hv'.
  assert (Hin : forall labels : gmap string string,
            is_Some (vec_series v' !! labels) ->
            is_Some (vec_series v !! labels)
            \/ labels = getMetricLabels metricLabels (InvolvedObject ev) (Reason ev)).
  { intros labels. rewrite (Send_series_lookup o o' ev e v v' Hsend Hv Hv').
    destruct (slices_Contains (kinds o) (Kind (InvolvedObject ev))); [|by left].
    case_decide; [|by left]. case_decide; [by right|by intros [? [=]]]. }
  split; [exact Hin|].
  rewrite <- !(size_dom (D := gset (gmap string string))).
  etransitivity.
  - apply (subseteq_size _
      (dom (vec_series v)
       ∪ {[ getMetricLabels metricLabels (InvolvedObject ev) (Reason ev) ]})).
    intros labels Hl%elem_of_dom. apply elem_of_union.
    destruct (Hin labels Hl) as [?| ->]; [left; by apply elem_of_dom|right].
    by apply elem_of_singleton.
  - rewrite size_union_alt.
    assert (size ({[ getMetricLabels metricLabels (InvolvedObject ev) (Reason ev) ]}
                  ∖ dom (vec_series v) : gset (gmap string string)) <= 1)%nat.
    { etransitivity; [apply subseteq_size, subseteq_difference_l; reflexivity|].
      by rewrite size_singleton. }
    lia.
Qed.

Lemma Send_one_more_witness :
  exists (o' : PrometheusSink GaugeVec) (v' : GaugeVec),
    Send (testSink testGaugeVec) testEvent = Ok (None, o')
    /\ metricsByKind o' !! "Pod" = Some v'
    /\ (size (vec_series v') <= 1)%nat.
Proof.
  destruct testSink_Send as (o' & v' & Hsend & Hv').
  exists o', v'. split; [exact Hsend|]. split; [exact Hv'|].
  destruct (Send_one_more (testSink testGaugeVec) o' testEvent None
              testGaugeVec v' Hsend eq_refl Hv') as [_ Hsize].
  exact Hsize.
Defined.

(** X16.  An event whose reason is not configured for its kind creates no
    series: every series in the vector of the kind after [Send] was there
    before, with the same value. *)
Theorem Send_unlisted_reason (o o' : PrometheusSink GaugeVec) (ev : EnhancedEvent)
    (e : error) (v v' : GaugeVec) :
  let kind := Kind (InvolvedObject ev) in
  Send o ev = Ok (e, o') ->
  metricsByKind o !! kind = Some v ->
  metricsByKind o' !! kind = Some v' ->
  Reason ev ∉ default [] (ReasonFilter (cfg o) !! kind) ->
  vec_series v' ⊆ vec_series v.
Proof.
  intros kind Hsend Hv Hv' Hreason.
  apply map_subseteq_spec. intros labels value.
  rewrite (Send_series_lookup o o' ev e v v' Hsend Hv Hv').
  destruct (slices_Contains (kinds o) (Kind (InvolvedObject ev))); [|done].
  case_decide as Hin; [|done]. case_decide as Heq; [|done].
  exfalso. apply list_elem_of_fmap in Hin as (reason & Hl & Hr).
  rewrite Heq in Hl. unfold eventLabels in Hl.
  apply getMetricLabels_inj in Hl. subst reason. by apply Hreason.
Qed.

Lemma Send_unlisted_reason_witness :
  exists (o' : PrometheusSink GaugeVec) (v' : GaugeVec),
    Send (testSink testGaugeVec)
      (mockEvent "Pod" "testpod" "testnamespace" ∅ "Unheard" 3) = Ok (None, o')
    /\ metricsByKind o' !! "Pod" = Some v'
    /\ vec_series v' ⊆ vec_series testGaugeVec.
Proof.
  pose proof (Send_known_kind (testSink testGaugeVec)
                (mockEvent "Pod" "testpod" "testnamespace" ∅ "Unheard" 3)
                testGaugeVec eq_refl eq_refl) as Hsend.
  eexists _, _. split; [exact Hsend|]. split; [apply lookup_insert_eq|].
  eapply (Send_unlisted_reason (testSink testGaugeVec) _ _ None testGaugeVec);
    [exact Hsend|reflexivity|apply lookup_insert_eq|].
  intros Hin. apply slices_Contains_elem_of in Hin. discriminate Hin.
Defined.

Lemma series_steps_empty (metricLabels : list string) (ev : EnhancedEvent)
    (reasons : list string) :
  fold_left (series_step metricLabels ev) reasons ∅
  = if decide (Reason ev ∈ reasons)
    then {[ getMetricLabels metricLabels (InvolvedObject ev) (Reason ev)
            := float64 (Count ev) ]}
    else ∅.
Proof.
  apply map_eq. intros labels. rewrite series_steps_lookup, lookup_empty.
  set (L := getMetricLabels metricLabels (InvolvedObject ev)).
  destruct (decide (Reason ev ∈ reasons)) as [Hr|Hr].
  - destruct (decide (labels = L (Reason ev))) as [->|Hne].
    + rewrite (decide_True (P := _ ∈ _)) by (by apply list_elem_of_fmap_2).
      by rewrite lookup_singleton_eq.
    + rewrite lookup_singleton_ne by done. by case_decide.
  - rewrite lookup_empty. case_decide as Hin; [|done].
    destruct (decide (labels = L (Reason ev))) as [Heq|]; [|done].
    exfalso. apply list_elem_of_fmap in Hin as (reason & Hl & Hin).
    rewrite Heq in Hl. apply getMetricLabels_inj in Hl. by subst reason.
Qed.

(** X17.  The first event on a vector without series: after [Send] the
    vector of a routed kind holds the one series built for the event's
    reason, at the event's count, when that reason is configured, and no
    series when it is not. *)
Theorem Send_first_event (o o' : PrometheusSink GaugeVec) (ev : EnhancedEvent)
    (e : error) (v v' : GaugeVec) :
  let kind := Kind (InvolvedObject ev) in
  let metricLabels := default [] (metricLabelsByKind o !! kind) in
  Send o ev = Ok (e, o') ->
  slices_Contains (kinds o) kind = true ->
  metricsByKind o !! kind = Some v ->
  metricsByKind o' !! kind = Some v' ->
  vec_series v = ∅ ->
  vec_series v'
  = if decide (Reason ev ∈ default [] (ReasonFilter (cfg o) !! kind))
    then {[ getMetricLabels metricLabels (InvolvedObject ev) (Reason ev)
            := float64 (Count ev) ]}
    else ∅.
Proof.
  intros kind metricLabels Hsend Hkind Hv Hv' Hempty.
  rewrite (Send_known_kind o ev v Hkind Hv) in Hsend.
  injection Hsend as <- <-. fold kind metricLabels in Hv'.
  cbn [metricsByKind] in Hv'. rewrite lookup_insert_eq in Hv'.
  injection Hv' as <-. rewrite GaugeVec_steps. cbn [GaugeVec_update vec_series].
  rewrite Hempty. apply series_steps_empty.
Qed.

Lemma Send_first_event_witness :
  exists (o' : PrometheusSink GaugeVec) (v' : GaugeVec),
    Send (testSink testGaugeVec) testEvent = Ok (None, o')
    /\ metricsByKind o' !! "Pod" = Some v'
    /\ vec_series v' = {[ staleLabels := 1 ]}.
Proof.
  destruct testSink_Send as (o' & v' & Hsend & Hv').
  exists o', v'. split; [exact Hsend|]. split; [exact Hv'|].
  rewrite (Send_first_event (testSink testGaugeVec) o' testEvent None
             testGaugeVec v' Hsend eq_refl eq_refl Hv' eq_refl).
  rewrite decide_True; [reflexivity|].
  apply slices_Contains_elem_of. reflexivity.
Defined.





(** The sweeps of two events about different objects commute on the
    series of a vector. *)
Lemma series_steps_comm (ml1 ml2 : list string) (ev1 ev2 : EnhancedEvent)
    (rs1 rs2 : list string) (series : gmap (gmap string string) Z) :
  other_object (InvolvedObject ev1) (InvolvedObject ev2) ->
  fold_left (series_step ml2 ev2) rs2 (fold_left (series_step ml1 ev1) rs1 series)
  = fold_left (series_step ml1 ev1) rs1 (fold_left (series_step ml2 ev2) rs2 series).
Proof.
  intros Hother. apply map_eq. intros labels. rewrite !series_steps_lookup.
  destruct (decide (labels ∈ getMetricLabels ml1 (InvolvedObject ev1) <$> rs1))
    as [H1|H1]; [|done].
  destruct (decide (labels ∈ getMetricLabels ml2 (InvolvedObject ev2) <$> rs2))
    as [H2|H2]; [|done].
  exfalso.
  apply list_elem_of_fmap in H1 as (r1 & -> & _).
  apply list_elem_of_fmap in H2 as (r2 & Heq & _).
  pose proof (getMetricLabels_name ml1 (InvolvedObject ev1) r1) as Hn.
  pose proof (getMetricLabels_namespace ml1 (InvolvedObject ev1) r1) as Hns.
  rewrite Heq, getMetricLabels_name in Hn.
  rewrite Heq, getMetricLabels_namespace in Hns.
  destruct Hother as [Hother|Hother]; apply Hother; congruence.
Qed.

(** X19.  Events about different objects can be processed in either
    order: on a sink with a gauge vector for every kind it routes, for two
    events whose kinds differ, or whose objects differ in name or in
    namespace, [Send] of the one and then of the other comes to the same
    sink as [Send] of the other and then of the one. *)
Theorem Send_commute (o : PrometheusSink GaugeVec) (ev1 ev2 : EnhancedEvent) :
  sink_wf o ->
  Kind (InvolvedObject ev1) <> Kind (InvolvedObject ev2)
  \/ other_object (InvolvedObject ev1) (InvolvedObject ev2) ->
  result_bind (Send o ev1) (fun r => Send (snd r) ev2)
  = result_bind (Send o ev2) (fun r => Send (snd r) ev1).
Proof.
  intros Hwf Hdiff.
  set (k1 := Kind (InvolvedObject ev1)). set (k2 := Kind (InvolvedObject ev2)).
  destruct (slices_Contains (kinds o) k1) eqn:Hk1;
    destruct (slices_Contains (kinds o) k2) eqn:Hk2.
  - destruct (Hwf k1 Hk1) as [v1 Hv1]. destruct (Hwf k2 Hk2) as [v2 Hv2].
    rewrite (Send_known_kind o ev1 v1 Hk1 Hv1), (Send_known_kind o ev2 v2 Hk2 Hv2).
    fold k1 k2. cbn [result_bind snd].
    destruct (decide (k1 = k2)) as [Heq|Hne].
    + assert (v2 = v1) as -> by (rewrite Heq in Hv1; congruence).
      erewrite (Send_known_kind _ ev2);
        cbn [kinds metricsByKind cfg metricLabelsByKind];
        [|exact Hk2|fold k2; rewrite <- Heq; apply lookup_insert_eq].
      erewrite (Send_known_kind _ ev1);
        cbn [kinds metricsByKind cfg metricLabelsByKind];
        [|exact Hk1|fold k1; rewrite Heq; apply lookup_insert_eq].
      fold k1 k2. rewrite <- Heq, !insert_insert_eq.
      do 3 f_equal. rewrite !GaugeVec_steps. unfold GaugeVec_update.
      cbn [vec_opts vec_labelNames vec_series].
      rewrite series_steps_comm; [done|].
      destruct Hdiff as [Hkinds|Hother]; [by destruct Hkinds|done].
    + erewrite (Send_known_kind _ ev2);
        cbn [kinds metricsByKind cfg metricLabelsByKind];
        [|exact Hk2|fold k2; by rewrite lookup_insert_ne].
      erewrite (Send_known_kind _ ev1);
        cbn [kinds metricsByKind cfg metricLabelsByKind];
        [|exact Hk1|fold k1; by rewrite lookup_insert_ne].
      fold k1 k2. by rewrite insert_insert_ne.
  - destruct (Hwf k1 Hk1) as [v1 Hv1].
    rewrite (Send_known_kind o ev1 v1 Hk1 Hv1), (Send_unknown_kind o ev2 Hk2).
    cbn [result_bind snd].
    rewrite Send_unknown_kind by exact Hk2.
    by rewrite (Send_known_kind o ev1 v1 Hk1 Hv1).
  - destruct (Hwf k2 Hk2) as [v2 Hv2].
    rewrite (Send_known_kind o ev2 v2 Hk2 Hv2), (Send_unknown_kind o ev1 Hk1).
    cbn [result_bind snd].
    rewrite (Send_unknown_kind _ ev1) by exact Hk1.
    by rewrite (Send_known_kind o ev2 v2 Hk2 Hv2).
  - rewrite (Send_unknown_kind o ev1 Hk1), (Send_unknown_kind o ev2 Hk2).
    cbn [result_bind snd].
    by rewrite (Send_unknown_kind o ev1 Hk1), (Send_unknown_kind o ev2 Hk2).
Qed.

Lemma testSink_wf {V : Type} (metric : V) : sink_wf (testSink metric).
Proof.
  intros kind Hkind. apply slices_Contains_elem_of in Hkind.
  apply list_elem_of_singleton in Hkind as ->. by eexists.
Qed.

Lemma Send_commute_witness :
  result_bind (Send (testSink testGaugeVec) testEvent)
    (fun r => Send (snd r)
                (mockEvent "Pod" "otherpod" "testnamespace" ∅ "Creating" 2))
  = result_bind
      (Send (testSink testGaugeVec)
         (mockEvent "Pod" "otherpod" "testnamespace" ∅ "Creating" 2))
      (fun r => Send (snd r) testEvent).
Proof.
  apply Send_commute; [apply testSink_wf|].
  right. left. discriminate.
Defined.

(** ** The registry *)

(** The loop of [NewPrometheusSink] lists every kind once. *)
Lemma NewPrometheusSink_loop_NoDup (U : string -> string)
    (config : PrometheusConfig) (filter_ : gmap string (list string)) :
  NoDup (fst (fst (map_fold (NewPrometheusSink_step U config) ([], ∅, ∅) filter_))).
Proof.
  enough (NoDup (fst (fst (map_fold (NewPrometheusSink_step U config)
                             ([], ∅, ∅) filter_)))
          /\ forall kind,
               kind ∈ fst (fst (map_fold (NewPrometheusSink_step U config)
                                  ([], ∅, ∅) filter_)) ->
               is_Some (filter_ !! kind)) as [? _] by done.
  apply (map_fold_weak_ind
    (fun (acc : list string * gmap string GaugeVec * gmap string (list string))
         (m : gmap string (list string)) =>
       NoDup (fst (fst acc))
       /\ forall kind, kind ∈ fst (fst acc) -> is_Some (m !! kind))).
  - split; [constructor|]. by intros kind ?%not_elem_of_nil.
  - intros kind reasons m [[ks ms] ls] Hfresh [Hnodup Hin].
    cbn [NewPrometheusSink_step fst] in *. split.
    + apply NoDup_app. split; [done|]. split; [|apply NoDup_singleton].
      intros k Hk ->%list_elem_of_singleton.
      destruct (Hin _ Hk) as [? Hsome]. congruence.
    + intros k [Hk| ->%list_elem_of_singleton]%elem_of_app.
      * destruct (decide (k = kind)) as [->|Hne];
          [by rewrite lookup_insert_eq|].
        rewrite lookup_insert_ne by done. by apply Hin.
      * by rewrite lookup_insert_eq.
Qed.

Lemma extraKeys_kindLabels (config : PrometheusConfig) (kind : string) :
  extraKeys (kindLabels config kind)
  = extraKeys (default [] (LabelFilter config !! kind)).
Proof.
  rewrite kindLabels_filter. unfold extraKeys. rewrite filter_app.
  change (filter (fun key => key ∉ defaultMetricLabels) defaultMetricLabels)
    with (@nil string).
  cbn [app]. generalize (default [] (LabelFilter config !! kind)).
  induction l as [|x l IH]; [done|].
  rewrite filter_cons. case_decide as Hx; [|exact IH].
  by rewrite filter_cons, decide_True, IH.
Qed.

(** X20.  The registry has one gauge vector for each kind of the reason
    filter and none for any other kind, a kind of the label filter alone
    included; the sink routes exactly those kinds, each listed once; and
    every vector starts without series, under the metric label keys of
    the kind's labels. *)
Theorem NewPrometheusSink_vectors (U : string -> string)
    (config : PrometheusConfig) (kind : string) :
  let o := fst (snd (NewPrometheusSink U config)) in
  (slices_Contains (kinds o) kind = true <-> is_Some (ReasonFilter config !! kind))
  /\ (is_Some (metricsByKind o !! kind) <-> is_Some (ReasonFilter config !! kind))
  /\ NoDup (kinds o)
  /\ forall v, metricsByKind o !! kind = Some v ->
       vec_series v = ∅
       /\ vec_labelNames v
          = getMetricLabelName <$>
              (defaultMetricLabels
               ++ extraKeys (default [] (LabelFilter config !! kind))).
Proof.
  intros o. subst o.
  destruct (NewPrometheusSink_unfold U config)
    as (o & Ho & _ & Hrf & _ & Hks & Hms & _).
  assert (Hnodup : NoDup (kinds (fst (snd (NewPrometheusSink U config))))).
  { unfold NewPrometheusSink.
    set (config' := if String.eqb _ _ then _ else _).
    pose proof (NewPrometheusSink_loop_NoDup U config' (ReasonFilter config')) as Hn.
    by destruct (map_fold _ _ _) as [[ks ms] ls]. }
  rewrite Ho in *. cbn [fst snd] in *.
  split; [apply Hks|]. split; [|split; [exact Hnodup|]].
  - rewrite Hms. destruct (ReasonFilter config !! kind) as [reasons|].
    + split; intros _; [exists reasons|exists (kindGaugeVec U
        (if String.eqb (EventsMetricsNamePrefix config) EmptyString
         then {| EventsMetricsNamePrefix := "event_exporter_";
                 ReasonFilter := ReasonFilter config;
                 LabelFilter := LabelFilter config |}
         else config) kind)]; reflexivity.
    + split; intros [? Hx]; discriminate Hx.
  - intros v. rewrite Hms.
    destruct (ReasonFilter config !! kind); [|done]. intros [= <-].
    split; [done|]. cbn [kindGaugeVec newGaugeVec NewGaugeVec vec_labelNames].
    rewrite getMetricLabelNames_fmap, kindLabels_filter. f_equal. f_equal.
    unfold extraKeys. by destruct (String.eqb _ _).
Qed.

Lemma NewPrometheusSink_vectors_witness :
  exists v : GaugeVec,
    metricsByKind (fst (snd (NewPrometheusSink gostrings.ToLower_ascii testConfig)))
      !! "Pod" = Some v
    /\ vec_series v = ∅
    /\ vec_labelNames v = ["name"; "namespace"; "reason"; "label_test_label"].
Proof.
  destruct (NewPrometheusSink_vectors gostrings.ToLower_ascii testConfig "Pod")
    as (_ & Hsome & _ & Hvec).
  destruct (proj2 Hsome) as [v Hv]; [by eexists|].
  exists v. split; [exact Hv|].
  destruct (Hvec v Hv) as [Hseries Hnames].
  split; [exact Hseries|]. rewrite Hnames. reflexivity.
Defined.

(** X21.  The label sets [Send] builds for a configured kind carry
    exactly the label names its gauge vector was created with. *)
Theorem NewPrometheusSink_label_names (U : string -> string)
    (config : PrometheusConfig) (kind : string) (v : GaugeVec)
    (obj : EnhancedObjectReference) (reason : string) :
  let o := fst (snd (NewPrometheusSink U config)) in
  metricsByKind o !! kind = Some v ->
  dom (getMetricLabels (default [] (metricLabelsByKind o !! kind)) obj reason)
  = (list_to_set (vec_labelNames v) : gset string).
Proof.
  intros o. subst o.
  destruct (NewPrometheusSink_unfold U config)
    as (o & -> & _ & _ & Hlf & _ & Hms & Hls).
  cbn [fst snd]. rewrite Hms, Hls.
  destruct (ReasonFilter config !! kind); [|done]. intros [= <-].
  cbn [fmap option_fmap option_map default
       kindGaugeVec newGaugeVec NewGaugeVec vec_labelNames].
  unfold getMetricLabels. rewrite getMetricLabels_loop_dom.
  rewrite !dom_insert_L, dom_empty_L.
  rewrite getMetricLabelNames_fmap.
  assert (Hkl : kindLabels
                  (if String.eqb (EventsMetricsNamePrefix config) EmptyString
                   then {| EventsMetricsNamePrefix := "event_exporter_";
                           ReasonFilter := ReasonFilter config;
                           LabelFilter := LabelFilter config |}
                   else config) kind = kindLabels config kind)
    by (by destruct (String.eqb _ _)).
  rewrite Hkl. unfold id. rewrite extraKeys_kindLabels, kindLabels_filter.
  rewrite fmap_app, list_to_set_app_L.
  change (getMetricLabelName <$> defaultMetricLabels)
    with ["name"; "namespace"; "reason"].
  cbn [list_to_set].
  apply set_eq. intros x. rewrite !elem_of_union, elem_of_empty.
  unfold extraKeys. tauto.
Qed.

Lemma NewPrometheusSink_label_names_witness :
  exists v : GaugeVec,
    metricsByKind (fst (snd (NewPrometheusSink gostrings.ToLower_ascii testConfig)))
      !! "Pod" = Some v
    /\ dom (getMetricLabels ["name"; "namespace"; "reason"; "test_label"]
              (InvolvedObject testEvent) "Starting")
       = (list_to_set (vec_labelNames v) : gset string).
Proof.
  destruct (NewPrometheusSink_unfold gostrings.ToLower_ascii testConfig)
    as (o & Ho & _ & _ & _ & _ & Hms & Hls).
  eexists. split.
  - rewrite Ho. cbn [fst snd]. rewrite Hms. reflexivity.
  - erewrite <- (NewPrometheusSink_label_names gostrings.ToLower_ascii testConfig
                   "Pod" _ (InvolvedObject testEvent) "Starting").
    + rewrite Ho. cbn [fst snd]. rewrite Hls. reflexivity.
    + rewrite Ho. cbn [fst snd]. rewrite Hms. reflexivity.
Defined.



(** ** Setting and deleting a count *)

(** X23.  On a vector that has no series for the object and the reason,
    [DeleteEventCount] changes nothing, and it undoes [SetEventCount]: the
    vector is again what it was. *)
Theorem DeleteEventCount_SetEventCount (v : GaugeVec) (metricLabels : list string)
    (obj : EnhancedObjectReference) (reason : string) (count : Z) :
  vec_series v !! getMetricLabels metricLabels obj reason = None ->
  DeleteEventCount v metricLabels obj reason = v
  /\ DeleteEventCount (SetEventCount v metricLabels obj reason count)
       metricLabels obj reason = v.
Proof.
  intros Hnone. unfold DeleteEventCount, SetEventCount.
  cbn [With_Set Delete GaugeVec_PrometheusGaugeVec snd].
  unfold GaugeVec_update. cbn [vec_opts vec_labelNames vec_series].
  rewrite delete_insert_eq, delete_id by done. by destruct v.
Qed.

Lemma DeleteEventCount_SetEventCount_witness :
  DeleteEventCount
    (SetEventCount testGaugeVec ["test_label"] (InvolvedObject testEvent)
       "Starting" 7)
    ["test_label"] (InvolvedObject testEvent) "Starting"
  = testGaugeVec.
Proof.
  apply (DeleteEventCount_SetEventCount testGaugeVec ["test_label"]
           (InvolvedObject testEvent) "Starting" 7).
  reflexivity.
Defined.

(** X24.  [SetEventCount] creates or updates: the series of the object
    and the reason then has the count, a count set before is replaced,
    and the series of the same object for another reason is as it was. *)
Theorem SetEventCount_lookup (v : GaugeVec) (metricLabels : list string)
    (obj : EnhancedObjectReference) (reason other : string) (c1 c2 : Z) :
  vec_series (SetEventCount v metricLabels obj reason c2)
    !! getMetricLabels metricLabels obj reason = Some (float64 c2)
  /\ SetEventCount (SetEventCount v metricLabels obj reason c1)
       metricLabels obj reason c2
     = SetEventCount v metricLabels obj reason c2
  /\ (other <> reason ->
      vec_series (SetEventCount v metricLabels obj reason c2)
        !! getMetricLabels metricLabels obj other
      = vec_series v !! getMetricLabels metricLabels obj other).
Proof.
  unfold SetEventCount. cbn [With_Set GaugeVec_PrometheusGaugeVec].
  unfold GaugeVec_update. cbn [vec_opts vec_labelNames vec_series].
  split; [apply lookup_insert_eq|]. split; [by rewrite insert_insert_eq|].
  intros Hne. apply lookup_insert_ne. intros Heq%getMetricLabels_inj. by subst.
Qed.

Lemma SetEventCount_lookup_witness :
  vec_series (SetEventCount testGaugeVec ["test_label"]
                (InvolvedObject testEvent) "Starting" 7)
    !! getMetricLabels ["test_label"] (InvolvedObject testEvent) "Creating"
  = None.
Proof.
  destruct (SetEventCount_lookup testGaugeVec ["test_label"]
              (InvolvedObject testEvent) "Starting" "Creating" 0 7)
    as (_ & _ & Hother).
  rewrite Hother; [reflexivity|discriminate].
Defined.

(** * The router with the checks of the client library *)








Lemma utf8_ValidString_empty : utf8_ValidString EmptyString = true.
Proof. reflexivity. Qed.









